(** * Golang-Concurrency: the monitor, the condition-variable channel and the
      publisher, as executable transition systems.

    Three primitives of the repository are embedded here:

    - [Monitor]: [Mutex[T]] of [custom_mutex] (a goroutine that owns [data]
      and serves the [read], [write] and [stop] channels in a [select]);
    - [CondChan]: [Channel[G]] of [custom_channel] (a [container/list] store,
      an [int] capacity and a [close] flag under a [sync.Cond]);
    - [PubSub]: [Publisher] of [pubsub] (a [map[string][]chan string] under a
      [sync.RWMutex]).

    Goroutines are kept in a list and identified by their position; a
    schedule is a list of positions. Scheduling a goroutine that cannot move
    (it is parked, blocked on a communication or a lock, or has returned)
    leaves the state as it is, so every schedule can be run. *)

From Stdlib Require Import ZArith Lia.
From stdpp Require Import gmap strings list fin_maps.

Local Open Scope Z_scope.

(** ** Machinery shared by the three models *)

(** Running a schedule: one step of the named goroutine after the other. *)
Definition run {St : Type} (step : nat → St → St) (sch : list nat) (s : St) : St :=
  foldl (λ s g, step g s) s sch.

(** ** The monitor: [Mutex[T]] *)

Module Monitor.
Section Monitor.
Context {T : Type}.
(** The zero value of [T], which [data] holds after [NewMutex]. *)
Variable zero : T.

(** Where the goroutine started by [NewMutex] stands: at its [select]; at
    [responeChan <- m.data] after the [read] case (the reply channel is
    private to one [Get], so it is named by the calling goroutine); or
    returned through the [stop] case. *)
Inductive coordinator :=
| CoSelect
| CoReply (responeChan : nat)
| CoReturned.

(** Where a calling goroutine stands. A caller makes one call. *)
Inductive caller :=
| GetCall              (* at [m.read <- responeChan] *)
| GetAwait             (* at [return <-responeChan] *)
| GetRet (v : T)
| SendCall (value : T)
| SendRet
| CloseCall
| CloseRet.

(** What the coordinator has served, oldest first. *)
Inductive service :=
| Wrote (g : nat) (value : T)
| ReadBy (g : nat) (v : T).

Record Mutex := mkMutex {
  data : T;
  loop : coordinator;
  callers : list caller;
  served : list service
}.

(** [NewMutex]: zero [data], three unbuffered channels (they hold no
    state: every communication on them is a rendezvous) and the
    coordinator started at its [select]. *)
Definition NewMutex : Mutex :=
  {| data := zero; loop := CoSelect; callers := []; served := [] |}.

(** [NewMutexWithValue]: [NewMutex], then [m.data = value]. *)
Definition NewMutexWithValue (value : T) : Mutex :=
  {| data := value; loop := loop NewMutex; callers := callers NewMutex;
     served := served NewMutex |}.

(** [go] statements of the callers. *)
Definition spawn (cs : list caller) (m : Mutex) : Mutex :=
  {| data := data m; loop := loop m; callers := callers m ++ cs; served := served m |}.

Definition set_caller (g : nat) (c : caller) (m : Mutex) : Mutex :=
  {| data := data m; loop := loop m; callers := <[g := c]> (callers m); served := served m |}.

(** The three cases of the coordinator's [select] in [NewMutex]. *)
Definition case_read (responeChan : nat) (m : Mutex) : Mutex :=
  {| data := data m; loop := CoReply responeChan; callers := callers m; served := served m |}.

Definition case_write (g : nat) (value : T) (m : Mutex) : Mutex :=
  {| data := value; loop := CoSelect; callers := callers m;
     served := served m ++ [Wrote g value] |}.

Definition case_stop (m : Mutex) : Mutex :=
  {| data := data m; loop := CoReturned; callers := callers m; served := served m |}.

(** [responeChan <- m.data], then back to the [select]. *)
Definition reply (g : nat) (m : Mutex) : Mutex :=
  {| data := data m; loop := CoSelect; callers := callers m;
     served := served m ++ [ReadBy g (data m)] |}.

(** [Get], first half: [m.read <- responeChan] meets the [read] case. *)
Definition Get_request (g : nat) (m : Mutex) : Mutex :=
  match loop m with
  | CoSelect => set_caller g GetAwait (case_read g m)
  | _ => m
  end.

(** [Get], second half: [<-responeChan] meets [responeChan <- m.data]. *)
Definition Get_receive (g : nat) (m : Mutex) : Mutex :=
  match loop m with
  | CoReply g' => if decide (g = g') then set_caller g (GetRet (data m)) (reply g m) else m
  | _ => m
  end.

(** Modelled from the spec: [Mutex.Send] is not among the sources. The
    spec has it enqueue a write request and block until the coordinator
    accepts it: the call returns when the [write] case of the [select]
    takes its value. *)
Definition Send (g : nat) (value : T) (m : Mutex) : Mutex :=
  match loop m with
  | CoSelect => set_caller g SendRet (case_write g value m)
  | _ => m
  end.

(** Modelled from the spec: [Mutex.Close] is not among the sources. The
    spec has it signal the coordinator to terminate its service loop,
    after which the coordinator performs no further reads or writes: the
    call returns when the [stop] case of the [select] fires. *)
Definition Close (g : nat) (m : Mutex) : Mutex :=
  match loop m with
  | CoSelect => set_caller g CloseRet (case_stop m)
  | _ => m
  end.

(** One move of caller [g], together with the coordinator it meets. *)
Definition step (g : nat) (m : Mutex) : Mutex :=
  match callers m !! g with
  | Some GetCall => Get_request g m
  | Some GetAwait => Get_receive g m
  | Some (SendCall value) => Send g value m
  | Some CloseCall => Close g m
  | _ => m
  end.

Definition is_call (c : caller) : bool :=
  match c with
  | GetCall | SendCall _ | CloseCall => true
  | _ => false
  end.

Definition is_write (e : service) : bool :=
  match e with Wrote _ _ => true | ReadBy _ _ => false end.

(** The value of the last write in a log, [d] when there is none. *)
Definition last_write (d : T) (log : list service) : T :=
  foldl (λ d e, match e with Wrote _ v => v | ReadBy _ _ => d end) d log.

(** A monitor as a program can have it: made by one of the constructors,
    with callers that have not moved yet, then run under some schedule. *)
Definition reachable (m : Mutex) : Prop :=
  ∃ m0 cs sch,
    (m0 = NewMutex ∨ ∃ value, m0 = NewMutexWithValue value) ∧
    Forall (λ c, is_call c = true) cs ∧
    m = run step sch (spawn cs m0).

(** What every reachable monitor satisfies, for the value [d] it was
    made with: [data] is the last value written; every read in the log
    carries the last value written before it; and a read in the log is
    the result its caller returned. *)
Definition reads_follow_writes (d : T) (l : list service) : Prop :=
  ∀ pre g w post, l = pre ++ ReadBy g w :: post → w = last_write d pre.

Definition reads_returned (m : Mutex) : Prop :=
  ∀ g w, ReadBy g w ∈ served m → callers m !! g = Some (GetRet w).

Definition consistent (d : T) (m : Mutex) : Prop :=
  data m = last_write d (served m) ∧ reads_follow_writes d (served m) ∧ reads_returned m.

End Monitor.

(** [Send(10)], then [Get()], as in [testBasicOperations]. *)
Definition basic : @Mutex Z := spawn [SendCall 10; GetCall] (NewMutex 0).

End Monitor.

(** ** The channel built on a condition variable: [Channel[G]] *)

(** Go's [int] on a 64-bit platform: [capacity++] and [capacity--] wrap. *)
Definition int_wrap (z : Z) : Z := (z + 2 ^ 63) mod 2 ^ 64 - 2 ^ 63.

Definition is_int (z : Z) : Prop := - 2 ^ 63 ≤ z < 2 ^ 63.

(** What [item.Value.(G)] in [Receive] depends on: whether a message,
    put in the list as an [any], is the nil interface value. It is when
    [G] is an interface type and the message is its nil, and the type
    assertion panics on it; for a [G] that is not an interface type no
    message is. *)
Class NilInterface (G : Type) := nil_interface : G → bool.

(** [int] is not an interface type. *)
#[global] Instance int_not_interface : NilInterface Z := λ _, false.

(** Nor is [string]. *)
#[global] Instance string_not_interface : NilInterface string := λ _, false.

(** An interface type with one implementation, as [error] with one
    error type: [None] is its nil. *)
#[global] Instance option_interface {A : Type} : NilInterface (option A) :=
  λ message, match message with None => true | Some _ => false end.

Module CondChan.
Section CondChan.
Context {G : Type} `{!NilInterface G}.
(** The zero value of [G]: what the named result [message] of [Receive]
    holds when the function returns without assigning it. *)
Variable zero : G.

(** The [Channel[G]] struct; [cond] and its mutex are the scheduling
    discipline of [step] below. *)
Record Channel := mkChannel {
  store : list G;
  capacity : Z;
  close : bool
}.

Definition NewChannel (capacity : Z) : Channel :=
  {| store := []; capacity := capacity; close := false |}.

(** [ch.store.Len()] *)
Definition Len (ch : Channel) : Z := Z.of_nat (length (store ch)).

(** Where a goroutine stands in the method it called. [errors.New(s)] is
    [Some s], the [nil] error is [None]. *)
Inductive task :=
| SendCall (message : G)      (* at [cond.L.Lock()] of [Send] *)
| SendWait (message : G)      (* parked in [cond.Wait()] of [Send] *)
| SendWake (message : G)      (* woken there, has to take the lock again *)
| SendRet (err : option string)
| RecvCall
| RecvWait
| RecvWake
| RecvRet (message : G) (ok : bool)
| RecvPanic                   (* the type assertion of [Receive] panicked *)
| CloseCall
| CloseRet (err : option string).

(** What a goroutine does inside its critical sections. *)
Inductive event :=
| EvWiden                     (* [ch.capacity++] *)
| EvNarrow                    (* [ch.capacity--] *)
| EvBroadcast                 (* [cond.Broadcast()] *)
| EvWait                      (* [cond.Wait()] *)
| EvPushBack (message : G)    (* [ch.store.PushBack(message)] *)
| EvRemove (message : G)      (* [ch.store.Remove(ch.store.Front())] *)
| EvClose                     (* [ch.close = true] *)
| EvPanic                     (* [item.Value.(G)] on the nil interface value *)
| EvReturn.

Record system := mkSystem {
  chan : Channel;
  tasks : list task;
  log : list (nat * event)
}.

Definition spawn (ts : list task) (ch : Channel) : system :=
  {| chan := ch; tasks := ts; log := [] |}.

Definition set_task (g : nat) (t : task) (s : system) : system :=
  {| chan := chan s; tasks := <[g := t]> (tasks s); log := log s |}.

Definition emit (g : nat) (e : event) (s : system) : system :=
  {| chan := chan s; tasks := tasks s; log := log s ++ [(g, e)] |}.

Definition set_chan (ch : Channel) (s : system) : system :=
  {| chan := ch; tasks := tasks s; log := log s |}.

(** A parked goroutine leaves [cond.Wait()] only through a broadcast. *)
Definition wake (t : task) : task :=
  match t with
  | SendWait message => SendWake message
  | RecvWait => RecvWake
  | _ => t
  end.

Definition Broadcast (g : nat) (s : system) : system :=
  emit g EvBroadcast {| chan := chan s; tasks := wake <$> tasks s; log := log s |}.

(** [cond.Wait()]: the lock is released and the goroutine parks. *)
Definition Wait (g : nat) (parked : task) (s : system) : system :=
  set_task g parked (emit g EvWait s).

Definition Return (g : nat) (result : task) (s : system) : system :=
  set_task g result (emit g EvReturn s).

(** A panic unwinds through the deferred unlock and ends the goroutine.
    Unrecovered it ends the program; the other goroutines are left free
    to move, as they are when the caller recovers. *)
Definition Panic (g : nat) (s : system) : system :=
  set_task g RecvPanic (emit g EvPanic s).

Definition PushBack (g : nat) (message : G) (s : system) : system :=
  emit g (EvPushBack message)
    (set_chan {| store := store (chan s) ++ [message];
                 capacity := capacity (chan s); close := close (chan s) |} s).

Definition capacity_incr (g : nat) (s : system) : system :=
  emit g EvWiden
    (set_chan {| store := store (chan s);
                 capacity := int_wrap (capacity (chan s) + 1);
                 close := close (chan s) |} s).

Definition capacity_decr (g : nat) (s : system) : system :=
  emit g EvNarrow
    (set_chan {| store := store (chan s);
                 capacity := int_wrap (capacity (chan s) - 1);
                 close := close (chan s) |} s).

Definition set_close (g : nat) (s : system) : system :=
  emit g EvClose
    (set_chan {| store := store (chan s); capacity := capacity (chan s);
                 close := true |} s).

(** [Send] from its loop on: the part run after the entry check and again
    after every wake-up. *)
Definition Send_loop (g : nat) (message : G) (s : system) : system :=
  if Len (chan s) =? capacity (chan s)
  then Wait g (SendWait message) s
  else Return g (SendRet None) (Broadcast g (PushBack g message s)).

Definition Send (g : nat) (message : G) (s : system) : system :=
  if close (chan s)
  then Return g (SendRet (Some "channel is already closed"%string)) s
  else Send_loop g message s.

(** [Receive] from its loop on. [ch.store.Len() == 0] is the empty-store
    case of the match; the front element is the head. After the removal
    [message = item.Value.(G)] panics when the item is the nil interface
    value: the second broadcast and the return are not reached. *)
Definition Receive_loop (g : nat) (s : system) : system :=
  match store (chan s) with
  | [] => Wait g RecvWait s
  | item :: rest =>
      let s1 := capacity_decr g s in
      let s2 := emit g (EvRemove item)
                  (set_chan {| store := rest; capacity := capacity (chan s1);
                               close := close (chan s1) |} s1) in
      if nil_interface item
      then Panic g s2
      else Return g (RecvRet item true) (Broadcast g s2)
  end.

Definition Receive (g : nat) (s : system) : system :=
  if close (chan s)
  then Return g (RecvRet zero false) s
  else Receive_loop g (Broadcast g (capacity_incr g s)).

Definition Close (g : nat) (s : system) : system :=
  if close (chan s)
  then Return g (CloseRet (Some "close is already closed"%string)) s
  else Return g (CloseRet None) (Broadcast g (set_close g s)).

(** One critical section of goroutine [g]: from taking the lock (at the
    call or after a wake-up) to [cond.Wait()] or the deferred unlock. *)
Definition step (g : nat) (s : system) : system :=
  match tasks s !! g with
  | Some (SendCall message) => Send g message s
  | Some (SendWake message) => Send_loop g message s
  | Some RecvCall => Receive g s
  | Some RecvWake => Receive_loop g s
  | Some CloseCall => Close g s
  | _ => s
  end.

(** The events of goroutine [g] in a log, in order. *)
Definition events_of (g : nat) (l : list (nat * event)) : list event :=
  snd <$> filter (λ p, p.1 = g) l.

Definition is_call (t : task) : bool :=
  match t with
  | SendCall _ | RecvCall | CloseCall => true
  | _ => false
  end.

Definition is_broadcast (e : event) : bool :=
  match e with EvBroadcast => true | _ => false end.

(** A [Receive] between its [capacity++] and its [capacity--]. *)
Definition is_widening (t : task) : bool :=
  match t with
  | RecvWait | RecvWake => true
  | _ => false
  end.

Definition widening (ts : list task) : nat :=
  length (filter (λ t, is_widening t = true) ts).

(** The steady-state bound of the spec. *)
Definition within_capacity (ch : Channel) : Prop :=
  0 ≤ Len ch ≤ capacity ch.

(** The messages pushed and the messages removed in a log, oldest
    first. *)
Definition pushed (l : list (nat * event)) : list G :=
  omap (λ p, match p.2 with EvPushBack message => Some message | _ => None end) l.

Definition removed (l : list (nat * event)) : list G :=
  omap (λ p, match p.2 with EvRemove message => Some message | _ => None end) l.

(** The message a goroutine is still to push. *)
Definition message_of (t : task) : option G :=
  match t with
  | SendCall message | SendWait message | SendWake message => Some message
  | _ => None
  end.

(** A [Send] inside its wait loop. *)
Definition is_pending_send (t : task) : bool :=
  match t with
  | SendWait _ | SendWake _ => true
  | _ => false
  end.

(** A channel of capacity 0 with one [Receive] and one [Send]. *)
Definition hand_off (v : G) : system :=
  spawn [RecvCall; SendCall v] (NewChannel 0).

(** The states the hand-off goes through: the channel and the two
    goroutines. *)
Definition hand_off_states (v : G) : list (Channel * list task) :=
  [ (NewChannel 0, [RecvCall; SendCall v]);
    (NewChannel 0, [RecvCall; SendWait v]);
    (NewChannel 1, [RecvWait; SendCall v]);
    (NewChannel 1, [RecvWait; SendWake v]);
    ({| store := [v]; capacity := 1; close := false |}, [RecvWake; SendRet None]);
    (NewChannel 0, [RecvRet v true; SendRet None]) ].

(** A goroutine that is past the entry check of [Send] with [message]
    and has not failed. *)
Definition sending (message : G) (t : task) : Prop :=
  t = SendWait message ∨ t = SendWake message ∨ t = SendRet None.

End CondChan.

(** Capacity 1: [Send(1)] fills the store, [Send(2)] has to wait, then
    [Close()]. *)
Definition full_then_closed : @system Z :=
  spawn [SendCall 1; SendCall 2; CloseCall] (NewChannel 1).

Definition closed_full : @Channel Z :=
  {| store := [1]; capacity := 1; close := true |}.

(** Capacity -1: a [Receive] and a [Send(7)]. *)
Definition negative_with_receiver : @system Z :=
  spawn [RecvCall; SendCall 7] (NewChannel (-1)).

(** Capacity 0: a [Receive], then a [Send(7)]. *)
Definition rendezvous : @system Z :=
  spawn [RecvCall; SendCall 7] (NewChannel 0).

(** Capacity 1 and an interface type: [Send(nil)], then a [Receive]. *)
Definition nil_message : @system (option Z) :=
  spawn [SendCall None; RecvCall] (NewChannel 1).

(** Capacity 0: two [Receive] calls and a [Send(7)]. *)
Definition two_receivers : @system Z :=
  spawn [RecvCall; RecvCall; SendCall 7] (NewChannel 0).

End CondChan.

(** ** The publisher: [Publisher] *)

Module PubSub.

(** A [chan string] of the Go runtime: a buffer, its capacity and the
    closed flag. Channels live in a heap and are compared by identity
    ([subscriber == subscriberChannel]), so they are named by their
    position in it. *)
Record mailbox := mkMailbox {
  buf : list string;
  cap : nat;
  closed : bool
}.

(** Where a goroutine stands. Every method is one critical section of the
    [RWMutex], but for [Publish], whose range loop can block at each
    [ch <- message] while it holds the read lock. [RecvCall] is the
    subscriber's side, [<-ch]. *)
Inductive task :=
| CreateTopicCall (topic : string)
| CreateTopicRet
| SubscribeCall (topic : string)
| SubscribeRet (channel : option nat) (err : option string)
| PublishCall (topic message : string)
| PublishRange (subscriber : list nat) (message : string)
| PublishRet (err : option string)
| CloseTopicCall (topic : string)
| CloseTopicRet (err : option string)
| CloseSubscriberCall (topic : string) (subscriberChannel : nat)
| CloseSubscriberRet (err : option string)
| RecvCall (ch : nat)
| RecvRet (msg : string) (ok : bool)
| Panicked.                   (* an unrecovered panic: the program ends *)

(** The [Publisher]: [subscribers], and for the embedded [RWMutex]
    [rlocked], the number of [Publish] calls inside the read lock, and
    [wwait], whether a call of [Lock] is waiting for them to leave; the
    channel heap, the goroutines and the sends made so far: (goroutine,
    channel, message), oldest first. *)
Record Publisher := mkPublisher {
  subscribers : gmap string (list nat);
  rlocked : nat;
  wwait : bool;
  chans : list mailbox;
  tasks : list task;
  sent : list (nat * nat * string)
}.

Definition NewPublisher (ts : list task) : Publisher :=
  {| subscribers := ∅; rlocked := 0; wwait := false; chans := []; tasks := ts;
     sent := [] |}.

Definition set_task (g : nat) (t : task) (p : Publisher) : Publisher :=
  {| subscribers := subscribers p; rlocked := rlocked p; wwait := wwait p;
     chans := chans p; tasks := <[g := t]> (tasks p); sent := sent p |}.

Definition set_subscribers (m : gmap string (list nat)) (p : Publisher) : Publisher :=
  {| subscribers := m; rlocked := rlocked p; wwait := wwait p; chans := chans p;
     tasks := tasks p; sent := sent p |}.

Definition set_chans (cs : list mailbox) (p : Publisher) : Publisher :=
  {| subscribers := subscribers p; rlocked := rlocked p; wwait := wwait p;
     chans := cs; tasks := tasks p; sent := sent p |}.

Definition set_rlocked (n : nat) (p : Publisher) : Publisher :=
  {| subscribers := subscribers p; rlocked := n; wwait := wwait p; chans := chans p;
     tasks := tasks p; sent := sent p |}.

Definition set_wwait (b : bool) (p : Publisher) : Publisher :=
  {| subscribers := subscribers p; rlocked := rlocked p; wwait := b; chans := chans p;
     tasks := tasks p; sent := sent p |}.

(** [close(ch)] on one channel: closing a closed channel panics. *)
Definition close_chan (c : nat) (cs : list mailbox) : option (list mailbox) :=
  match cs !! c with
  | Some mb =>
      if closed mb then None
      else Some (<[c := {| buf := buf mb; cap := cap mb; closed := true |}]> cs)
  | None => None
  end.

(** [for _, ch := range l { close(ch) }]; [None] is a panic. *)
Fixpoint close_all (l : list nat) (cs : list mailbox) : option (list mailbox) :=
  match l with
  | [] => Some cs
  | c :: l' =>
      match close_chan c cs with
      | Some cs' => close_all l' cs'
      | None => None
      end
  end.

Definition CreateTopic (g : nat) (topic : string) (p : Publisher) : Publisher :=
  set_task g CreateTopicRet (set_subscribers (<[topic := []]> (subscribers p)) p).

(** [make(chan string, 1)] comes before the lookup, so a channel is
    allocated also when the topic is missing. *)
Definition Subscribe (g : nat) (topic : string) (p : Publisher) : Publisher :=
  let channel := length (chans p) in
  let p1 := set_chans (chans p ++ [{| buf := []; cap := 1; closed := false |}]) p in
  match subscribers p !! topic with
  | None => set_task g (SubscribeRet None (Some "topic not found"%string)) p1
  | Some l =>
      set_task g (SubscribeRet (Some channel) None)
        (set_subscribers (<[topic := l ++ [channel]]> (subscribers p)) p1)
  end.

(** [Publish] up to its range loop, once [RLock] is through: the lookup,
    and the deferred [RUnlock] when the topic is missing. *)
Definition Publish (g : nat) (topic message : string) (p : Publisher) : Publisher :=
  match subscribers p !! topic with
  | None => set_task g (PublishRet (Some "topic not found"%string)) p
  | Some subscriber =>
      set_task g (PublishRange subscriber message) (set_rlocked (S (rlocked p)) p)
  end.

(** One round of [for _, ch := range subscriber { ch <- message }]: a
    send of the Go runtime (panic when closed, blocked when full), or the
    end of the loop with the deferred [RUnlock]. *)
Definition Publish_range (g : nat) (subscriber : list nat) (message : string)
    (p : Publisher) : Publisher :=
  match subscriber with
  | [] => set_task g (PublishRet None) (set_rlocked (pred (rlocked p)) p)
  | ch :: rest =>
      match chans p !! ch with
      | Some mb =>
          if closed mb then set_task g Panicked (set_rlocked (pred (rlocked p)) p)
          else if decide (length (buf mb) < cap mb)%nat then
            {| subscribers := subscribers p; rlocked := rlocked p;
               wwait := wwait p;
               chans := <[ch := {| buf := buf mb ++ [message]; cap := cap mb;
                                   closed := false |}]> (chans p);
               tasks := <[g := PublishRange rest message]> (tasks p);
               sent := sent p ++ [(g, ch, message)] |}
          else p
      | None => p
      end
  end.

Definition CloseTopic (g : nat) (topic : string) (p : Publisher) : Publisher :=
  match subscribers p !! topic with
  | None => set_task g (CloseTopicRet (Some "topic not found"%string)) p
  | Some l =>
      match close_all l (chans p) with
      | Some cs =>
          set_task g (CloseTopicRet None)
            (set_subscribers (delete topic (subscribers p)) (set_chans cs p))
      | None => set_task g Panicked p
      end
  end.

(** [append(l[:i], l[i+1:]...)] *)
Definition remove_at (i : nat) (l : list nat) : list nat :=
  take i l ++ drop (S i) l.

Definition CloseSubscriber (g : nat) (topic : string) (subscriberChannel : nat)
    (p : Publisher) : Publisher :=
  match subscribers p !! topic with
  | None => set_task g (CloseSubscriberRet (Some "topic not found"%string)) p
  | Some l =>
      match list_find (λ subscriber, subscriber = subscriberChannel) l with
      | Some (i, subscriber) =>
          match close_chan subscriber (chans p) with
          | Some cs =>
              set_task g (CloseSubscriberRet None)
                (set_subscribers (<[topic := remove_at i l]> (subscribers p))
                   (set_chans cs p))
          | None => set_task g Panicked p
          end
      | None => set_task g (CloseSubscriberRet (Some "subscriber not found"%string)) p
      end
  end.

(** [msg, ok := <-ch] of the Go runtime: buffered messages come first,
    also on a closed channel; an empty closed channel gives the zero
    value and [false]; an empty open one blocks. *)
Definition Recv (g : nat) (ch : nat) (p : Publisher) : Publisher :=
  match chans p !! ch with
  | Some mb =>
      match buf mb with
      | msg :: rest =>
          set_task g (RecvRet msg true)
            (set_chans (<[ch := {| buf := rest; cap := cap mb; closed := closed mb |}]>
                          (chans p)) p)
      | [] => if closed mb then set_task g (RecvRet ""%string false) p else p
      end
  | None => p
  end.

(** [p.Lock()] of [sync.RWMutex]: granted when no [Publish] holds the
    read lock; the method then runs to its deferred [Unlock] in one step.
    While readers hold the lock the call waits, and from then on holds
    back new readers. Which of several waiting writers is served first is
    left to the schedule. *)
Definition exclusive (f : Publisher → Publisher) (p : Publisher) : Publisher :=
  match rlocked p with
  | O => set_wwait false (f p)
  | S _ => set_wwait true p
  end.

(** [p.RLock()] of [sync.RWMutex]: a call made while a writer waits for
    the lock blocks until a writer has had it. (The runtime hands the read
    lock to the readers that waited when that writer unlocks; here they
    take it at their next move, which adds schedules, those in which
    another writer comes first, and removes none.) *)
Definition shared (f : Publisher → Publisher) (p : Publisher) : Publisher :=
  if wwait p then p else f p.

Definition step (g : nat) (p : Publisher) : Publisher :=
  match tasks p !! g with
  | Some (CreateTopicCall topic) => exclusive (CreateTopic g topic) p
  | Some (SubscribeCall topic) => exclusive (Subscribe g topic) p
  | Some (PublishCall topic message) => shared (Publish g topic message) p
  | Some (PublishRange subscriber message) => Publish_range g subscriber message p
  | Some (CloseTopicCall topic) => exclusive (CloseTopic g topic) p
  | Some (CloseSubscriberCall topic ch) => exclusive (CloseSubscriber g topic ch) p
  | Some (RecvCall ch) => Recv g ch p
  | _ => p
  end.

Definition is_call (t : task) : bool :=
  match t with
  | CreateTopicCall _ | SubscribeCall _ | PublishCall _ _ | CloseTopicCall _
  | CloseSubscriberCall _ _ | RecvCall _ => true
  | _ => false
  end.

Definition is_range (t : task) : bool :=
  match t with PublishRange _ _ => true | _ => false end.

(** A publisher as a program can have it. *)
Definition reachable (p : Publisher) : Prop :=
  ∃ ts sch, Forall (λ t, is_call t = true) ts ∧ p = run step sch (NewPublisher ts).

(** The channels [g] sent to in a log, in order. *)
Definition sent_by (g : nat) (l : list (nat * nat * string)) : list (nat * string) :=
  (λ e, (e.1.2, e.2)) <$> filter (λ e, e.1.1 = g) l.

Definition is_open (p : Publisher) (c : nat) : Prop :=
  ∃ mb, chans p !! c = Some mb ∧ closed mb = false.

Definition is_closed (p : Publisher) (c : nat) : Prop :=
  ∃ mb, chans p !! c = Some mb ∧ closed mb = true.

(** [c] is in the subscriber list of [topic]. *)
Definition subscribed (p : Publisher) (topic : string) (c : nat) : Prop :=
  ∃ l, subscribers p !! topic = Some l ∧ c ∈ l.

(** What the methods keep true of the registry: a subscriber list has no
    channel twice and only open channels; no channel is in two lists; the
    channels a [Publish] has still to send to are open; and [rlocked]
    counts the [Publish] calls inside their loop. *)
Definition lists_open (p : Publisher) : Prop :=
  ∀ topic l, subscribers p !! topic = Some l →
    NoDup l ∧ ∀ c, c ∈ l → is_open p c.

Definition lists_disjoint (p : Publisher) : Prop :=
  ∀ topic1 topic2 l1 l2 c,
    topic1 ≠ topic2 →
    subscribers p !! topic1 = Some l1 → subscribers p !! topic2 = Some l2 →
    c ∈ l1 → c ∉ l2.

Definition ranges_open (p : Publisher) : Prop :=
  ∀ g rest message, tasks p !! g = Some (PublishRange rest message) →
    ∀ c, c ∈ rest → is_open p c.

Definition ranging (ts : list task) : nat :=
  length (filter (λ t, is_range t = true) ts).

Definition wf (p : Publisher) : Prop :=
  lists_open p ∧ lists_disjoint p ∧ ranges_open p ∧ rlocked p = ranging (tasks p).

(** What [make(chan string, 1)] and the blocking send keep of every
    channel of the heap. *)
Definition bounded (mb : mailbox) : Prop :=
  cap mb = 1%nat ∧ (length (buf mb) ≤ 1)%nat.

Definition is_recv (t : task) : bool :=
  match t with RecvCall _ => true | _ => false end.

(** [news]: a topic, one subscriber, one message published and delivered
    to the mailbox, not yet received; then [CloseTopic] and the
    subscriber's receive. *)
Definition news_tasks : list task :=
  [CreateTopicCall "news"; SubscribeCall "news"; PublishCall "news" "hi";
   CloseTopicCall "news"; RecvCall 0].

Definition news_published : Publisher :=
  run step [0; 1; 2; 2; 2]%nat (NewPublisher news_tasks).

(** A topic with one subscriber, who is then removed. *)
Definition unsubscribing : Publisher :=
  run step [0; 1]%nat
    (NewPublisher [CreateTopicCall "news"; SubscribeCall "news";
                   CloseSubscriberCall "news" 0]).

(** A topic with two subscribers and a [Publish] about to start. *)
Definition two_subscribers : Publisher :=
  run step [0; 1; 2]%nat
    (NewPublisher [CreateTopicCall "news"; SubscribeCall "news";
                   SubscribeCall "news"; PublishCall "news" "hi"]).

(** A topic with one subscriber, created a second time. *)
Definition created_twice_tasks : list task :=
  [CreateTopicCall "news"; SubscribeCall "news"; CreateTopicCall "news"].

Definition subscribed_once : Publisher :=
  run step [0; 1]%nat (NewPublisher created_twice_tasks).

(** Two topics with one subscriber each and a [Publish] to the first. *)
Definition two_topics : Publisher :=
  run step [0; 1; 2; 3]%nat
    (NewPublisher [CreateTopicCall "news"; CreateTopicCall "sport";
                   SubscribeCall "news"; SubscribeCall "sport";
                   PublishCall "news" "hi"]).

(** One topic and two calls of [Subscribe], one of them to a name that
    was never created. *)
Definition subscribing : Publisher :=
  run step [0]%nat
    (NewPublisher [CreateTopicCall "news"; SubscribeCall "news";
                   SubscribeCall "sport"]).

(** A subscriber who never receives: the first message is in the mailbox
    and a second [Publish] has taken the read lock. *)
Definition mailbox_full : Publisher :=
  run step [0; 1; 2; 2; 2; 3]%nat
    (NewPublisher [CreateTopicCall "news"; SubscribeCall "news";
                   PublishCall "news" "first"; PublishCall "news" "second";
                   CloseTopicCall "news"]).

(** A [Publish] held up at a full mailbox while it has the read lock, a
    [Subscribe] that waits for the write lock, and behind it a [Publish]
    to another topic and one to the same topic; two receives. *)
Definition writer_waiting_tasks : list task :=
  [CreateTopicCall "news"; CreateTopicCall "sport"; SubscribeCall "news";
   PublishCall "news" "first"; PublishCall "news" "second"; SubscribeCall "news";
   PublishCall "sport" "y"; PublishCall "news" "third"; RecvCall 0; RecvCall 0].

Definition writer_waiting : Publisher :=
  run step [0; 1; 2; 3; 3; 3; 4; 4; 5]%nat (NewPublisher writer_waiting_tasks).

(** A subscriber removed once, and a second call to remove it. *)
Definition removed_once : Publisher :=
  run step [0; 1; 2]%nat
    (NewPublisher [CreateTopicCall "news"; SubscribeCall "news";
                   CloseSubscriberCall "news" 0; CloseSubscriberCall "news" 0]).

End PubSub.

(** * Properties *)

(** ** Schedules *)

Lemma run_nil {St} (step : nat → St → St) s : run step [] s = s.
Proof. reflexivity. Qed.

Lemma run_cons {St} (step : nat → St → St) g sch s :
  run step (g :: sch) s = run step sch (step g s).
Proof. reflexivity. Qed.

Lemma run_snoc {St} (step : nat → St → St) g sch s :
  run step (sch ++ [g]) s = step g (run step sch s).
Proof. unfold run. by rewrite foldl_app. Qed.

Lemma run_app {St} (step : nat → St → St) sch1 sch2 s :
  run step (sch1 ++ sch2) s = run step sch2 (run step sch1 s).
Proof. unfold run. by rewrite foldl_app. Qed.

(** A property kept by every step is kept by every schedule. *)
Lemma run_invariant {St} (step : nat → St → St) (P : St → Prop) :
  (∀ g s, P s → P (step g s)) → ∀ sch s, P s → P (run step sch s).
Proof.
  intros Hstep sch. induction sch as [|g sch IH]; intros s Hs; [done|].
  rewrite run_cons. apply IH, Hstep, Hs.
Qed.

(** A list that ends in [e], cut at an inner element [x]. *)
Lemma snoc_eq_middle {A} (l pre post : list A) (e x : A) :
  l ++ [e] = pre ++ x :: post →
  (post = [] ∧ e = x ∧ l = pre) ∨ (∃ post', post = post' ++ [e] ∧ l = pre ++ x :: post').
Proof.
  destruct post as [|y post' _] using rev_ind; intros Heq.
  - apply app_inj_tail in Heq as [-> ->]. by left.
  - right. exists post'. change (x :: post' ++ [y]) with ((x :: post') ++ [y]) in Heq.
    rewrite app_assoc in Heq. apply app_inj_tail in Heq as [-> ->]. done.
Qed.

(** Rewriting one entry of a list moves the number of entries that
    satisfy a test by that entry alone. *)
Lemma count_insert {A} (f : A → bool) (ts : list A) (g : nat) (t t' : A) :
  ts !! g = Some t →
  (length (filter (λ t, f t = true) (<[g := t']> ts)) + Nat.b2n (f t) =
   length (filter (λ t, f t = true) ts) + Nat.b2n (f t'))%nat.
Proof.
  intros Hg.
  rewrite insert_take_drop by (by eapply lookup_lt_Some).
  rewrite <- (take_drop_middle ts g t Hg) at 3.
  rewrite !filter_app, !length_app, !filter_cons.
  destruct (f t) eqn:Ht, (f t') eqn:Ht';
    repeat case_decide; simpl; try congruence; lia.
Qed.

(** ** The monitor *)

Module MonitorSpec.
Import Monitor.

Section Facts.
Context {T : Type}.
Variable zero : T.
Implicit Types (m : @Mutex T) (g : nat) (sch : list nat).

(** Once the coordinator has returned nobody meets it any more. *)
Lemma step_returned g m : loop m = CoReturned → step g m = m.
Proof.
  intros Hl. unfold step, Get_request, Get_receive, Send, Close.
  rewrite Hl. by repeat case_match.
Qed.

Lemma run_returned sch m : loop m = CoReturned → run step sch m = m.
Proof.
  revert m. induction sch as [|g sch IH]; intros m Hl; [done|].
  rewrite run_cons, step_returned by done. by apply IH.
Qed.

Lemma Close_returns g m :
  callers m !! g = Some CloseCall → loop m = CoSelect →
  loop (step g m) = CoReturned ∧ callers (step g m) !! g = Some CloseRet ∧
  served (step g m) = served m.
Proof.
  intros Hg Hl. unfold step, Close. rewrite Hg, Hl. simpl.
  split_and!; [done| |done].
  apply list_lookup_insert_eq. by eapply lookup_lt_Some.
Qed.

Lemma last_write_snoc (d : T) (l : list service) (e : service) :
  last_write d (l ++ [e]) =
  match e with Wrote _ v => v | ReadBy _ _ => last_write d l end.
Proof. unfold last_write. rewrite foldl_app. by destruct e. Qed.

Lemma last_write_no_write (d : T) (l : list service) :
  Forall (λ e, is_write e = false) l → last_write d l = d.
Proof.
  induction l as [|e l IH] using rev_ind; [done|].
  rewrite Forall_app, Forall_singleton. intros [Hl He].
  rewrite last_write_snoc. destruct e; [done|]. by apply IH.
Qed.

Lemma last_write_app (d : T) (l1 l2 : list service) :
  last_write d (l1 ++ l2) = last_write (last_write d l1) l2.
Proof. unfold last_write. by rewrite foldl_app. Qed.

Lemma reads_returned_set m g c :
  (∀ w, callers m !! g ≠ Some (GetRet w)) →
  reads_returned m → ∀ g' w, ReadBy g' w ∈ served m →
  <[g := c]> (callers m) !! g' = Some (GetRet w).
Proof.
  intros Hg Hr g' w Hin. specialize (Hr g' w Hin).
  destruct (decide (g = g')) as [->|Hne]; [by destruct (Hg w)|].
  by rewrite list_lookup_insert_ne.
Qed.

Lemma consistent_step d g m : consistent d m → consistent d (step g m).
Proof.
  intros (Hd & Hf & Hr). unfold step.
  destruct (callers m !! g) as [c|] eqn:Hg; [|done].
  destruct c; try done.
  - (* GetCall *)
    unfold Get_request. destruct (loop m); try done.
    split_and!; [done..|]. intros g' w Hin. simpl in *.
    apply reads_returned_set; [congruence|done..].
  - (* GetAwait *)
    unfold Get_receive. destruct (loop m) as [|g'|]; try done.
    case_decide as Heq; [subst g'|done].
    split_and!; simpl.
    + by rewrite last_write_snoc.
    + intros pre g' w post [(-> & [= <- <-] & <-)|(post' & -> & Hl)]%snoc_eq_middle.
      * done.
      * by eapply Hf.
    + intros g' w [Hin|Hin%list_elem_of_singleton]%elem_of_app; simpl.
      * apply reads_returned_set; [congruence|done..].
      * injection Hin as -> ->. apply list_lookup_insert_eq. by eapply lookup_lt_Some.
  - (* SendCall *)
    unfold Send. destruct (loop m); try done.
    split_and!; simpl.
    + by rewrite last_write_snoc.
    + intros pre g' w post [(_ & [=] & _)|(post' & -> & Hl)]%snoc_eq_middle.
      by eapply Hf.
    + intros g' w [Hin|Hin%list_elem_of_singleton]%elem_of_app; simpl; [|done].
      apply reads_returned_set; [congruence|done..].
  - (* CloseCall *)
    unfold Close. destruct (loop m); try done.
    split_and!; [done..|]. intros g' w Hin. simpl in *.
    apply reads_returned_set; [congruence|done..].
Qed.

Lemma consistent_reachable m : reachable zero m → ∃ d, consistent d m.
Proof.
  intros (m0 & cs & sch & Hm0 & _ & ->).
  exists (data m0). apply run_invariant; [apply consistent_step|].
  assert (served m0 = []) as Hs by (destruct Hm0 as [->|[v ->]]; done).
  unfold consistent, reads_follow_writes, reads_returned. simpl. rewrite Hs.
  split_and!; [done| |].
  - intros pre g w post Heq. by destruct pre.
  - intros g w Hin. by apply elem_of_nil in Hin.
Qed.

(** C5. After [Close] has returned, no [Get] and no [Send], pending or
    issued later, is ever served: under every schedule the callers stay
    at their call and the coordinator's log does not grow. *)
Theorem after_Close_never_completes m c cs sch :
  callers m !! c = Some CloseCall → loop m = CoSelect →
  let now := spawn cs (step c m) in
  let later := run step sch now in
  callers now !! c = Some CloseRet ∧
  loop later = CoReturned ∧
  served later = served now ∧
  (∀ g, callers now !! g = Some GetCall → callers later !! g = Some GetCall) ∧
  (∀ g v, callers now !! g = Some (SendCall v) →
          callers later !! g = Some (SendCall v)).
Proof.
  intros Hc Hl now later.
  destruct (Close_returns c m Hc Hl) as (Hret & Hcr & _).
  assert (later = now) as -> by (apply run_returned; done).
  split_and!; try done.
  unfold now, spawn. simpl. by apply lookup_app_l_Some.
Qed.

(** C6. In the log of a reachable monitor, a read served after the write
    of [v], with no write served in between, carries [v], and that is
    what the [Get] returned. *)
Theorem Get_after_Send m pre s v mid g w post :
  reachable zero m →
  served m = pre ++ Wrote s v :: mid ++ ReadBy g w :: post →
  Forall (λ e, is_write e = false) mid →
  w = v ∧ callers m !! g = Some (GetRet w).
Proof.
  intros Hreach Hlog Hmid.
  destruct (consistent_reachable m Hreach) as (d & _ & Hf & Hr).
  split.
  - rewrite (Hf (pre ++ Wrote s v :: mid) g w post).
    + rewrite last_write_app. simpl.
      change (foldl _ ?d (Wrote s v :: mid)) with (last_write v mid).
      by apply last_write_no_write.
    + rewrite Hlog. by rewrite <- app_assoc.
  - apply Hr. rewrite Hlog. set_solver.
Qed.

End Facts.

Lemma basic_run :
  run step [0; 1; 1]%nat basic =
  {| data := 10; loop := CoSelect; callers := [SendRet; GetRet 10];
     served := [Wrote 0 10; ReadBy 1 10] |}.
Proof. reflexivity. Qed.

Lemma Get_after_Send_witness :
  10 = 10 ∧ callers (run step [0; 1; 1]%nat basic) !! 1%nat = Some (GetRet 10).
Proof.
  apply (Get_after_Send 0 (run step [0; 1; 1]%nat basic) [] 0%nat 10 [] 1%nat 10 []).
  - exists (NewMutex 0), [SendCall 10; GetCall], [0; 1; 1]%nat.
    split_and!; [by left| |done]. by repeat constructor.
  - reflexivity.
  - constructor.
Defined.

(** [Send(1)], [Close()], then a [Get] and a [Send], as [testCleanup]
    warns against. *)
Lemma after_Close_never_completes_witness :
  let now := spawn [GetCall; SendCall 2] (step 1 (spawn [SendRet; CloseCall] (NewMutex 0))) in
  let later := run step [2; 3; 2; 3]%nat now in
  callers now !! 1%nat = Some CloseRet ∧
  loop later = CoReturned ∧
  served later = served now ∧
  (∀ g, callers now !! g = Some GetCall → callers later !! g = Some GetCall) ∧
  (∀ g v, callers now !! g = Some (SendCall v) → callers later !! g = Some (SendCall v)).
Proof.
  apply (after_Close_never_completes (spawn [SendRet; CloseCall] (NewMutex 0)) 1%nat
           [GetCall; SendCall 2] [2; 3; 2; 3]%nat); reflexivity.
Defined.

End MonitorSpec.

(** ** The monitor: what its callers can rely on *)

Module MonitorFacts.
Import Monitor.

Section Facts.
Context {T : Type}.
Variable zero : T.
Implicit Types (m : @Mutex T) (g : nat) (sch : list nat).

Lemma last_write_cases (d : T) (l : list service) :
  (last_write d l = d ∧ Forall (λ e, is_write e = false) l) ∨
  ∃ s, Wrote s (last_write d l) ∈ l.
Proof.
  induction l as [|e l IH] using rev_ind; [left; by split|].
  rewrite MonitorSpec.last_write_snoc. destruct e as [s v|s v].
  - right. exists s. apply elem_of_app. right. by apply list_elem_of_singleton.
  - destruct IH as [[Hd Hl]|[s' Hs']].
    + left. split; [done|]. apply Forall_app. split; [done|]. by constructor.
    + right. exists s'. apply elem_of_app. by left.
Qed.

Lemma consistent_run value (cs : list caller) sch :
  Forall (λ c, is_call c = true) cs →
  consistent value (run step sch (spawn cs (NewMutexWithValue zero value))).
Proof.
  intros Hcs. apply run_invariant; [apply MonitorSpec.consistent_step|].
  split_and!; [done| |].
  - intros pre g w post Heq. by destruct pre.
  - intros g w Hin. by apply elem_of_nil in Hin.
Qed.

(** X1. What a [Get] returns is the value of the last write the
    coordinator served before it, and the value the monitor was made with
    when there was none; so it is always that value or one that a caller
    sent. *)
Theorem Get_reads_last_write value (cs : list caller) sch pre g w post :
  Forall (λ c, is_call c = true) cs →
  served (run step sch (spawn cs (NewMutexWithValue zero value))) =
    pre ++ ReadBy g w :: post →
  callers (run step sch (spawn cs (NewMutexWithValue zero value))) !! g = Some (GetRet w) ∧
  w = last_write value pre ∧
  (Forall (λ e, is_write e = false) pre → w = value) ∧
  (w = value ∨ ∃ s, Wrote s w ∈ pre).
Proof.
  intros Hcs Hlog. destruct (consistent_run value cs sch Hcs) as (_ & Hf & Hr).
  pose proof (Hf pre g w post Hlog) as Hw.
  split_and!.
  - apply Hr. rewrite Hlog. set_solver.
  - done.
  - intros Hpre. rewrite Hw. by apply MonitorSpec.last_write_no_write.
  - rewrite Hw. destruct (last_write_cases value pre) as [[Hd _]|Hs]; auto.
Qed.

(** The coordinator stands at [responeChan <- m.data] for [g] exactly when
    [g] is the caller that waits for its reply. *)
Lemma awaiting_step g m :
  (∀ h, callers m !! h = Some GetAwait ↔ loop m = CoReply h) →
  ∀ h, callers (step g m) !! h = Some GetAwait ↔ loop (step g m) = CoReply h.
Proof.
  intros Hinv h. unfold step.
  destruct (callers m !! g) as [c|] eqn:Hg; [|exact (Hinv h)].
  assert (g < length (callers m))%nat as Hlt by (by eapply lookup_lt_Some).
  destruct c; try exact (Hinv h).
  - unfold Get_request. destruct (loop m) eqn:Hl; try (rewrite Hl; exact (Hinv h)). simpl.
    destruct (decide (g = h)) as [->|Hne].
    + by rewrite list_lookup_insert_eq.
    + rewrite list_lookup_insert_ne by done. split; [|congruence].
      intros Hh%Hinv. congruence.
  - unfold Get_receive. destruct (loop m) as [|g'|] eqn:Hl; try (rewrite Hl; exact (Hinv h)).
    case_decide as Heq; [subst g'|rewrite Hl; exact (Hinv h)]. simpl.
    destruct (decide (g = h)) as [->|Hne].
    + by rewrite list_lookup_insert_eq.
    + rewrite list_lookup_insert_ne by done. split; [|done].
      intros Hh%Hinv. congruence.
  - unfold Send. destruct (loop m) eqn:Hl; try (rewrite Hl; exact (Hinv h)). simpl.
    destruct (decide (g = h)) as [->|Hne].
    + by rewrite list_lookup_insert_eq.
    + rewrite list_lookup_insert_ne by done. split; [|done].
      intros Hh%Hinv. congruence.
  - unfold Close. destruct (loop m) eqn:Hl; try (rewrite Hl; exact (Hinv h)). simpl.
    destruct (decide (g = h)) as [->|Hne].
    + by rewrite list_lookup_insert_eq.
    + rewrite list_lookup_insert_ne by done. split; [|done].
      intros Hh%Hinv. congruence.
Qed.

(** X2. The coordinator serves one request at a time: in every reachable
    monitor at most one caller waits for the reply to its [Get], and it is
    the one whose private channel the coordinator is about to send on. *)
Theorem one_read_in_flight m g h :
  reachable zero m →
  callers m !! g = Some GetAwait → callers m !! h = Some GetAwait →
  g = h ∧ loop m = CoReply g.
Proof.
  intros (m0 & cs & sch & Hm0 & Hcs & ->) Hg Hh.
  assert (∀ k, callers (run step sch (spawn cs m0)) !! k = Some GetAwait ↔
               loop (run step sch (spawn cs m0)) = CoReply k) as Hinv.
  { apply (run_invariant step
             (λ m, ∀ k, callers m !! k = Some GetAwait ↔ loop m = CoReply k)).
    - intros k m. apply awaiting_step.
    - intros k. assert (callers (spawn cs m0) = cs ∧ loop (spawn cs m0) = CoSelect)
        as [-> ->] by (destruct Hm0 as [->|[v ->]]; done).
      split; [|done]. intros Hk. rewrite Forall_lookup in Hcs.
      by specialize (Hcs k _ Hk). }
  apply Hinv in Hg. apply Hinv in Hh. split; [congruence|done].
Qed.

Lemma awaiting_reachable m :
  reachable zero m → ∀ k, callers m !! k = Some GetAwait ↔ loop m = CoReply k.
Proof.
  intros (m0 & cs & sch & Hm0 & Hcs & ->).
  apply (run_invariant step
           (λ m, ∀ k, callers m !! k = Some GetAwait ↔ loop m = CoReply k)).
  - intros k m. apply awaiting_step.
  - intros k. assert (callers (spawn cs m0) = cs ∧ loop (spawn cs m0) = CoSelect)
      as [-> ->] by (destruct Hm0 as [->|[v ->]]; done).
    split; [|done]. intros Hk. rewrite Forall_lookup in Hcs.
    by specialize (Hcs k _ Hk).
Qed.

(** While the coordinator stands at its reply to [g], the other callers
    find nobody at the [select]. *)
Lemma others_blocked g m sch :
  loop m = CoReply g → g ∉ sch → run step sch m = m.
Proof.
  intros Hl. induction sch as [|h sch IH]; [done|].
  intros [Hne Hsch]%not_elem_of_cons. rewrite run_cons.
  assert (step h m = m) as ->; [|by apply IH].
  unfold step. destruct (callers m !! h) as [[]|]; try done;
    unfold Get_request, Get_receive, Send, Close; rewrite Hl; try done.
  by case_decide.
Qed.

Lemma reply_received g m sch :
  loop m = CoReply g → callers m !! g = Some GetAwait → g ∉ sch →
  run step (sch ++ [g]) m = set_caller g (GetRet (data m)) (reply g m).
Proof.
  intros Hl Hg Hsch. rewrite run_snoc, (others_blocked g m sch Hl Hsch).
  unfold step, Get_receive. rewrite Hg, Hl. by case_decide.
Qed.

Lemma request_served g m sch :
  loop m = CoSelect → callers m !! g = Some GetCall → g ∉ sch →
  let m' := run step (g :: sch ++ [g]) m in
  callers m' = <[g := GetRet (data m)]> (callers m) ∧
  served m' = served m ++ [ReadBy g (data m)] ∧
  data m' = data m ∧ loop m' = CoSelect.
Proof.
  intros Hl Hg Hsch m'. unfold m'. rewrite run_cons.
  assert (step g m = set_caller g GetAwait (case_read g m)) as ->.
  { unfold step, Get_request. by rewrite Hg, Hl. }
  rewrite (reply_received g); [|done| |done].
  - simpl. by rewrite list_insert_insert_eq.
  - simpl. apply list_lookup_insert_eq. by eapply lookup_lt_Some.
Qed.

(** X3. A [Get] is served while the coordinator runs. Once the
    coordinator has taken the request of a [Get], no other caller is
    served before that caller has its reply, and the reply is the data of
    that moment. A [Get] called while the coordinator is at its [select]
    returns that data after its two moves, whatever the other callers
    try in between; called while the coordinator replies to another
    [Get], it does so once that one has taken its reply. Each time the
    log grows by the one entry of the call. *)
Theorem Get_is_served m g sch :
  reachable zero m → g ∉ sch →
  (callers m !! g = Some GetAwait →
     let m' := run step (sch ++ [g]) m in
     callers m' = <[g := GetRet (data m)]> (callers m) ∧
     served m' = served m ++ [ReadBy g (data m)] ∧
     data m' = data m ∧ loop m' = CoSelect) ∧
  (callers m !! g = Some GetCall → loop m = CoSelect →
     let m' := run step (g :: sch ++ [g]) m in
     callers m' = <[g := GetRet (data m)]> (callers m) ∧
     served m' = served m ++ [ReadBy g (data m)] ∧
     data m' = data m ∧ loop m' = CoSelect) ∧
  (∀ h, callers m !! g = Some GetCall → loop m = CoReply h →
     let m' := run step (h :: g :: sch ++ [g]) m in
     callers m' = <[g := GetRet (data m)]> (<[h := GetRet (data m)]> (callers m)) ∧
     served m' = served m ++ [ReadBy h (data m); ReadBy g (data m)] ∧
     data m' = data m ∧ loop m' = CoSelect).
Proof.
  intros Hm Hsch. pose proof (awaiting_reachable m Hm) as Hinv. split_and!.
  - intros Hg m'. unfold m'. rewrite (reply_received g); [done| |done..].
    by apply Hinv.
  - intros Hg Hl. by apply request_served.
  - intros h Hg Hl m'. unfold m'. rewrite run_cons.
    assert (callers m !! h = Some GetAwait) as Hh by (by apply Hinv).
    assert (h ≠ g) as Hne by congruence.
    assert (step h m = set_caller h (GetRet (data m)) (reply h m)) as ->.
    { unfold step, Get_receive. rewrite Hh, Hl. by case_decide. }
    destruct (request_served g (set_caller h (GetRet (data m)) (reply h m)) sch)
      as (H1 & H2 & H3 & H4); [done| |done|].
    { simpl. by rewrite list_lookup_insert_ne. }
    split_and!; [done| |done..]. rewrite H2. simpl. by rewrite <- app_assoc.
Qed.

End Facts.

(** [NewMutexWithValue(-1)], then [Get()], as in [testManyValues]. *)
Lemma Get_reads_last_write_witness :
  callers (run step [0; 0]%nat (spawn [GetCall] (NewMutexWithValue 0 (-1)))) !! 0%nat
    = Some (GetRet (-1)) ∧
  -1 = last_write (-1) [] ∧
  (Forall (λ e, is_write e = false) ([] : list (@service Z)) → -1 = -1) ∧
  (-1 = -1 ∨ ∃ s, Wrote s (-1) ∈ ([] : list (@service Z))).
Proof.
  apply (Get_reads_last_write 0 (-1) [GetCall] [0; 0]%nat [] 0%nat (-1) []).
  - by repeat constructor.
  - reflexivity.
Defined.

Lemma basic_reachable : reachable 0 (run step [0; 1]%nat basic).
Proof.
  exists (NewMutex 0), [SendCall 10; GetCall], [0; 1]%nat.
  split_and!; [by left| |done]. by repeat constructor.
Defined.

Lemma one_read_in_flight_witness :
  1%nat = 1%nat ∧ loop (run step [0; 1]%nat basic) = CoReply 1.
Proof.
  apply (one_read_in_flight 0 (run step [0; 1]%nat basic) 1%nat 1%nat basic_reachable);
    reflexivity.
Defined.

(** [testBasicOperations]: the [Get] after [Send(10)], with its request
    taken, and the sender trying again in between. *)
Lemma Get_is_served_witness :
  let m' := run step ([0; 0]%nat ++ [1%nat]) (run step [0; 1]%nat basic) in
  callers m' = <[1%nat := GetRet 10]> (callers (run step [0; 1]%nat basic)) ∧
  served m' = served (run step [0; 1]%nat basic) ++ [ReadBy 1 10] ∧
  data m' = 10 ∧ loop m' = CoSelect.
Proof.
  destruct (Get_is_served 0 (run step [0; 1]%nat basic) 1%nat [0; 0]%nat)
    as [H _]; [exact basic_reachable| |by apply H].
  intros Hin. apply elem_of_cons in Hin as [Hin|Hin]; [done|].
  apply elem_of_cons in Hin as [Hin|Hin]; [done|]. by apply elem_of_nil in Hin.
Defined.

End MonitorFacts.

(** ** The channel *)

Module CondChanSpec.
Import CondChan.

Lemma int_wrap_id z : is_int z → int_wrap z = z.
Proof.
  unfold is_int, int_wrap. intros Hz.
  rewrite Z.mod_small by lia. lia.
Qed.

Lemma int_wrap_is_int z : is_int (int_wrap z).
Proof.
  unfold is_int, int_wrap.
  pose proof (Z.mod_pos_bound (z + 2 ^ 63) (2 ^ 64)). lia.
Qed.

(** [capacity++] followed by [capacity--] gives the capacity back, also
    across the wrap at the largest [int]. *)
Lemma int_wrap_incr_decr z : is_int z → int_wrap (int_wrap (z + 1) - 1) = z.
Proof.
  unfold is_int, int_wrap. intros Hz.
  replace (((z + 1 + 2 ^ 63) mod 2 ^ 64 - 2 ^ 63 - 1 + 2 ^ 63))
    with ((z + 1 + 2 ^ 63) mod 2 ^ 64 - 1) by lia.
  rewrite Zminus_mod_idemp_l.
  replace (z + 1 + 2 ^ 63 - 1) with (z + 2 ^ 63) by lia.
  rewrite Z.mod_small by lia. lia.
Qed.

Lemma int_wrap_incr z : int_wrap (int_wrap z + 1) = int_wrap (z + 1).
Proof.
  unfold int_wrap. f_equal.
  replace ((z + 2 ^ 63) mod 2 ^ 64 - 2 ^ 63 + 1 + 2 ^ 63)
    with ((z + 2 ^ 63) mod 2 ^ 64 + 1) by lia.
  rewrite Zplus_mod_idemp_l. f_equal. lia.
Qed.

Lemma int_wrap_decr z : int_wrap (int_wrap z - 1) = int_wrap (z - 1).
Proof.
  unfold int_wrap. f_equal.
  replace ((z + 2 ^ 63) mod 2 ^ 64 - 2 ^ 63 - 1 + 2 ^ 63)
    with ((z + 2 ^ 63) mod 2 ^ 64 - 1) by lia.
  rewrite Zminus_mod_idemp_l. f_equal. lia.
Qed.

Section Facts.
Context {G : Type} `{!NilInterface G}.
Variable zero : G.
Implicit Types (s : @system G) (g : nat) (sch : list nat) (t : @task G).

Local Abbreviation step := (CondChan.step zero).

(** The control structure of the methods is unfolded; what they do to
    the three fields is computed through the projections. *)
Ltac unfold_ops :=
  unfold CondChan.step, Send, Send_loop, Receive, Receive_loop, Close in *.

Ltac reduce_ops :=
  cbn [chan tasks log store capacity close Return Panic Wait Broadcast PushBack
       capacity_incr capacity_decr set_close emit set_chan set_task] in *.

Lemma lookup_wake (ts : list (@task G)) g :
  (wake <$> ts) !! g = wake <$> (ts !! g).
Proof. apply list_lookup_fmap. Qed.

(** The closed flag is never reset. *)
Lemma close_step g s : close (chan s) = true → close (chan (step g s)) = true.
Proof. intros Hc. unfold_ops. repeat case_match; reduce_ops; congruence. Qed.

Lemma close_run sch s : close (chan s) = true → close (chan (run step sch s)) = true.
Proof. apply (run_invariant step (λ s, close (chan s) = true)), close_step. Qed.

(** What a step of [g'] can do to another goroutine [g]: wake it. *)
Lemma step_other g g' s :
  g ≠ g' →
  tasks (step g' s) !! g = tasks s !! g ∨
  tasks (step g' s) !! g = wake <$> (tasks s !! g).
Proof.
  intros Hne. unfold_ops.
  repeat case_match; reduce_ops;
    rewrite ?list_lookup_insert_ne by done; rewrite ?lookup_wake; auto.
  (* a [Receive] that finds an item broadcasts twice *)
  right. by destruct (tasks s !! g) as [[]|].
Qed.

(** The log grows at its end, by events of the goroutine that moved. *)
Lemma log_step g s :
  ∃ evs, log (step g s) = log s ++ ((g,.) <$> evs).
Proof.
  unfold_ops. repeat case_match; reduce_ops;
    rewrite <- ?app_assoc; simpl;
    try (by exists []; rewrite app_nil_r);
    try (by eexists [_]); try (by eexists [_; _]); try (by eexists [_; _; _]);
    try (by eexists [_; _; _; _]); try (by eexists [_; _; _; _; _]);
    try (by eexists [_; _; _; _; _; _]).
Qed.

Ltac at_self :=
  rewrite ?list_lookup_insert_eq
    by (rewrite ?length_fmap; eapply lookup_lt_Some; eassumption).

(** C4. [Receive] on a closed channel is one critical section that
    returns the zero value and [false]: the channel (store, capacity and
    flag) is as before whatever the store holds, no other goroutine is
    woken, and the only event is the return. *)
Theorem Receive_closed g s :
  tasks s !! g = Some RecvCall → close (chan s) = true →
  chan (step g s) = chan s ∧
  tasks (step g s) = <[g := RecvRet zero false]> (tasks s) ∧
  tasks (step g s) !! g = Some (RecvRet zero false) ∧
  log (step g s) = log s ++ [(g, EvReturn)].
Proof.
  intros Hg Hc. unfold CondChan.step, Receive. rewrite Hg, Hc.
  reduce_ops. split_and!; try done. by at_self.
Qed.

(** C9. [Close] on an open channel sets the flag, touches neither store
    nor capacity and returns [nil], and the flag stays set under every
    schedule; [Close] on a closed channel returns the error and leaves
    the channel as it is. *)
Theorem Close_once g s g' s' :
  tasks s !! g = Some CloseCall → close (chan s) = false →
  tasks s' !! g' = Some CloseCall → close (chan s') = true →
  (tasks (step g s) !! g = Some (CloseRet None) ∧
   chan (step g s) =
     {| store := store (chan s); capacity := capacity (chan s); close := true |} ∧
   ∀ sch, close (chan (run step sch (step g s))) = true) ∧
  (tasks (step g' s') !! g' = Some (CloseRet (Some "close is already closed"%string)) ∧
   chan (step g' s') = chan s').
Proof.
  intros Hg Hc Hg' Hc'.
  assert (tasks (step g s) !! g = Some (CloseRet None) ∧
          chan (step g s) =
            {| store := store (chan s); capacity := capacity (chan s); close := true |})
    as [H1 H2].
  { unfold CondChan.step, Close. rewrite Hg, Hc. reduce_ops. by at_self. }
  split; [split_and!; try done|].
  - intros sch. apply close_run. by rewrite H2.
  - unfold CondChan.step, Close. rewrite Hg', Hc'. reduce_ops. by at_self.
Qed.

(** Past its entry check a [Send] has no path to an error: it waits, is
    woken, or pushes and returns [nil]. *)
Lemma sending_step g g' v s :
  (∃ t, tasks s !! g = Some t ∧ sending v t) →
  ∃ t, tasks (step g' s) !! g = Some t ∧ sending v t.
Proof.
  intros (t & Hg & Ht). destruct (decide (g = g')) as [<-|Hne].
  - unfold CondChan.step. rewrite Hg.
    destruct Ht as [-> | [-> | ->]]; [by eexists; split; [|left]| |by eexists; split; [|do 2 right]].
    unfold Send_loop. case_match; reduce_ops; at_self;
      eexists; (split; [done|]); unfold sending; auto.
  - destruct (step_other g g' s Hne) as [Heq|Heq]; rewrite Heq, Hg; simpl.
    + by exists t.
    + eexists; split; [done|]. destruct Ht as [-> | [-> | ->]]; unfold sending; simpl; auto.
Qed.

Lemma sending_run g v sch s :
  (∃ t, tasks s !! g = Some t ∧ sending v t) →
  ∃ t, tasks (run step sch s) !! g = Some t ∧ sending v t.
Proof.
  apply (run_invariant step (λ s, ∃ t, tasks s !! g = Some t ∧ sending v t)).
  intros; by apply sending_step.
Qed.

(** A [Send] parked in [cond.Wait()] never returns the closed error,
    whatever happens to the channel afterwards. *)
Lemma parked_Send_never_fails g v sch s err :
  tasks s !! g = Some (SendWait v) →
  tasks (run step sch s) !! g ≠ Some (SendRet (Some err)).
Proof.
  intros Hg. destruct (sending_run g v sch s) as (t & -> & Ht).
  { eexists; split; [done|by left]. }
  destruct Ht as [-> | [-> | ->]]; congruence.
Qed.

(** With a negative capacity field the length of the store, which is
    not negative, cannot equal it: [Send] does not enter its loop. *)
Lemma Send_negative g v s :
  capacity (chan s) < 0 → close (chan s) = false →
  tasks s !! g = Some (SendCall v) →
  step g s = Return g (SendRet None) (Broadcast g (PushBack g v s)).
Proof.
  intros Hneg Hc Hg. unfold CondChan.step, Send, Send_loop. rewrite Hg, Hc.
  destruct (Z.eqb_spec (Len (chan s)) (capacity (chan s))) as [Heq|]; [|done].
  unfold Len in Heq. lia.
Qed.

Lemma wake_senders (pre : list (@task G)) (vs : list G) :
  Forall (λ t, t = SendRet None) pre →
  wake <$> (pre ++ (SendCall <$> vs)) = pre ++ (SendCall <$> vs).
Proof.
  intros Hpre. rewrite fmap_app. f_equal.
  - induction Hpre as [|t pre -> _ IH]; [done|]. by rewrite fmap_cons, IH.
  - rewrite <- list_fmap_compose. by apply list_fmap_ext.
Qed.

(** Senders that run one after the other on a channel whose capacity
    field is negative all push and return [nil]. *)
Lemma Send_negative_all (vs : list G) : ∀ (pre : list (@task G)) s,
  capacity (chan s) < 0 → close (chan s) = false →
  Forall (λ t, t = SendRet None) pre →
  tasks s = pre ++ (SendCall <$> vs) →
  let s' := run step (seq (length pre) (length vs)) s in
  store (chan s') = store (chan s) ++ vs ∧
  Forall (λ t, t = SendRet None) (tasks s').
Proof.
  induction vs as [|v vs IH]; intros pre s Hneg Hc Hpre Hts.
  - simpl. rewrite app_nil_r. split; [done|]. rewrite Hts. by rewrite app_nil_r.
  - cbn [length seq]. rewrite run_cons.
    assert (tasks s !! length pre = Some (SendCall v)) as Hg.
    { rewrite Hts, fmap_cons. by rewrite list_lookup_middle. }
    rewrite (Send_negative _ v s Hneg Hc Hg).
    set (s1 := Return _ _ _).
    destruct (IH (pre ++ [SendRet None]) s1) as [Hst Hall].
    + done.
    + done.
    + apply Forall_app. split; [done|]. by constructor.
    + subst s1. reduce_ops. rewrite Hts.
      rewrite (wake_senders pre (v :: vs) Hpre). simpl.
      rewrite insert_app_r_alt by lia. rewrite Nat.sub_diag. simpl.
      by rewrite <- app_assoc.
    + rewrite length_app in Hst, Hall. simpl in Hst, Hall.
      rewrite Nat.add_1_r in Hst, Hall.
      split; [|done]. rewrite Hst. subst s1. reduce_ops.
      by rewrite <- app_assoc.
Qed.

(** *** The capacity field counts the waiting receivers *)

Lemma widening_wake (ts : list (@task G)) : widening (wake <$> ts) = widening ts.
Proof.
  unfold widening. induction ts as [|t ts IH]; [done|].
  rewrite fmap_cons, !filter_cons.
  destruct t; simpl; repeat case_decide; simpl; try done; by rewrite IH.
Qed.

Lemma widening_commit (ts ts' : list (@task G)) g t t' :
  ts' !! g = Some t → widening ts' = widening ts →
  (widening (<[g := t']> ts') + Nat.b2n (is_widening t) =
   widening ts + Nat.b2n (is_widening t'))%nat.
Proof. intros Hg <-. by apply (count_insert is_widening). Qed.

(** On a channel made with capacity [c0], the capacity field is [c0]
    plus the number of [Receive] calls that wait, in [int] arithmetic. *)
Lemma capacity_counts_step c0 g s :
  capacity (chan s) = int_wrap (c0 + Z.of_nat (widening (tasks s))) →
  capacity (chan (step g s)) = int_wrap (c0 + Z.of_nat (widening (tasks (step g s)))).
Proof.
  intros Htr. unfold_ops.
  destruct (tasks s !! g) as [t|] eqn:Hg; [|done].
  destruct t; try done; repeat case_match; reduce_ops;
    match goal with
    | |- context [widening (<[g := ?t']> ?ts')] =>
        pose proof (widening_commit (tasks s) ts' g _ t'
                      ltac:(rewrite ?lookup_wake, Hg; reflexivity)
                      ltac:(by rewrite ?widening_wake)) as Hw;
        simpl in Hw
    end;
    rewrite Htr, ?int_wrap_incr, ?int_wrap_decr; f_equal; lia.
Qed.

Lemma widening_calls (ts : list (@task G)) :
  Forall (λ t, is_call t = true) ts → widening ts = 0%nat.
Proof.
  unfold widening. induction 1 as [|t ts Ht _ IH]; [done|].
  rewrite filter_cons_False; [done|]. by destruct t.
Qed.

Lemma capacity_counts c0 (ts : list (@task G)) sch :
  is_int c0 → Forall (λ t, is_call t = true) ts →
  capacity (chan (run step sch (spawn ts (NewChannel c0)))) =
  int_wrap (c0 + Z.of_nat (widening (tasks (run step sch (spawn ts (NewChannel c0)))))).
Proof.
  intros Hint Hts.
  apply (run_invariant step
           (λ s, capacity (chan s) = int_wrap (c0 + Z.of_nat (widening (tasks s))))).
  - intros g s. apply capacity_counts_step.
  - simpl. rewrite widening_calls by done. rewrite Z.add_0_r. by rewrite int_wrap_id.
Qed.

(** C10, as amended. [NewChannel] takes the capacity as it comes. While
    the capacity field is negative on an open channel, [Send] does not
    wait: it appends its message and returns [nil]. On a channel made
    with a negative capacity [c] the field is negative as long as fewer
    than [-c] calls of [Receive] are waiting; [n] calls of [Send] in a
    row store [n] messages there; and the bound on the store fails,
    since it forces a capacity that is not negative. *)
Theorem Send_negative_capacity g v s c (vs : list G) :
  capacity (chan s) < 0 → close (chan s) = false →
  tasks s !! g = Some (SendCall v) → c < 0 → is_int c →
  capacity (NewChannel (G := G) c) = c ∧
  (tasks (step g s) !! g = Some (SendRet None) ∧
   store (chan (step g s)) = store (chan s) ++ [v] ∧
   capacity (chan (step g s)) = capacity (chan s)) ∧
  (∀ (ts : list (@task G)) sch,
     Forall (λ t, is_call t = true) ts →
     Z.of_nat (widening (tasks (run step sch (spawn ts (NewChannel c))))) < - c →
     capacity (chan (run step sch (spawn ts (NewChannel c)))) < 0) ∧
  (let s' := run step (seq 0 (length vs)) (spawn (SendCall <$> vs) (NewChannel c)) in
   store (chan s') = vs ∧ length (store (chan s')) = length vs ∧
   Forall (λ t, t = SendRet None) (tasks s')) ∧
  ¬ within_capacity (chan s) ∧ ¬ within_capacity (chan (step g s)) ∧
  (∀ ch : @Channel G, within_capacity ch → 0 ≤ capacity ch).
Proof.
  intros Hneg Hc Hg Hc0 Hint. split; [done|].
  rewrite (Send_negative g v s Hneg Hc Hg). reduce_ops.
  split_and!; try done.
  - by at_self.
  - intros ts sch Hts Hw. rewrite capacity_counts by done.
    rewrite int_wrap_id; unfold is_int in *; lia.
  - by apply (Send_negative_all vs [] (spawn (SendCall <$> vs) (NewChannel c))).
  - f_equal. by apply (Send_negative_all vs [] (spawn (SendCall <$> vs) (NewChannel c))).
  - by apply (Send_negative_all vs [] (spawn (SendCall <$> vs) (NewChannel c))).
  - unfold within_capacity, Len. lia.
  - unfold within_capacity, Len. simpl. lia.
  - unfold within_capacity, Len. lia.
Qed.

(** *** The protocol of [Receive] *)

Lemma events_of_app g (l1 l2 : list (nat * @event G)) :
  events_of g (l1 ++ l2) = events_of g l1 ++ events_of g l2.
Proof. unfold events_of. by rewrite filter_app, fmap_app. Qed.

Lemma events_of_self g (evs : list (@event G)) :
  events_of g ((g,.) <$> evs) = evs.
Proof.
  unfold events_of. induction evs as [|e evs IH]; [done|].
  rewrite fmap_cons, filter_cons_True by done. rewrite fmap_cons. by f_equal.
Qed.

Lemma events_of_other g g' (evs : list (@event G)) :
  g ≠ g' → events_of g ((g',.) <$> evs) = [].
Proof.
  intros Hne. unfold events_of. induction evs as [|e evs IH]; [done|].
  rewrite fmap_cons, filter_cons_False; [done|]. simpl. congruence.
Qed.

Lemma step_parked g s :
  tasks s !! g = Some RecvWait → step g s = s.
Proof. intros Hg. unfold CondChan.step. by rewrite Hg. Qed.

Lemma wake_wake (ts : list (@task G)) : wake <$> (wake <$> ts) = wake <$> ts.
Proof.
  rewrite <- list_fmap_compose. apply list_fmap_ext. intros i t _. by destruct t.
Qed.

(** A parked [Receive] leaves [cond.Wait()] through a broadcast of another
    goroutine and through nothing else. *)
Lemma parked_until_broadcast g h s :
  h ≠ g → tasks s !! g = Some RecvWait →
  ∃ evs, log (step h s) = log s ++ ((h,.) <$> evs) ∧
    tasks (step h s) !! g =
      Some (if existsb is_broadcast evs then RecvWake else RecvWait).
Proof.
  intros Hne Hg. unfold_ops.
  repeat case_match; reduce_ops;
    rewrite ?list_lookup_insert_ne by done; rewrite ?lookup_wake, ?Hg;
    rewrite <- ?app_assoc;
    first [ by exists []; rewrite app_nil_r
          | by eexists [_] | by eexists [_; _] | by eexists [_; _; _]
          | by eexists [_; _; _; _] | by eexists [_; _; _; _; _]
          | by eexists [_; _; _; _; _; _] ].
Qed.

(** How a [Receive] ends once it has removed [item]: with a panic or
    with the second broadcast and the return. *)
Lemma Receive_ended_step g s item t (tail : list (@event G)) :
  tasks s !! g = Some t →
  (if nil_interface item then t = RecvPanic ∧ tail = [EvPanic]
   else t = RecvRet item true ∧ tail = [EvBroadcast; EvReturn]) →
  step g s = s ∧ wake t = t.
Proof.
  intros Hg Hend. unfold CondChan.step. rewrite Hg.
  destruct (nil_interface item); by destruct Hend as [-> _].
Qed.

(** The first critical section of [Receive] on an open channel. *)
Lemma Receive_entry g s :
  tasks s !! g = Some RecvCall → close (chan s) = false →
  is_int (capacity (chan s)) →
  (store (chan s) = [] →
     step g s =
       {| chan := {| store := []; capacity := int_wrap (capacity (chan s) + 1);
                     close := false |};
          tasks := <[g := RecvWait]> (wake <$> tasks s);
          log := log s ++ [(g, EvWiden); (g, EvBroadcast); (g, EvWait)] |}) ∧
  (∀ item rest, store (chan s) = item :: rest →
     step g s =
       {| chan := {| store := rest; capacity := capacity (chan s); close := false |};
          tasks := <[g := if nil_interface item then RecvPanic else RecvRet item true]>
                     (wake <$> tasks s);
          log := log s ++ [(g, EvWiden); (g, EvBroadcast); (g, EvNarrow);
                           (g, EvRemove item)] ++
                   (if nil_interface item then [(g, EvPanic)]
                    else [(g, EvBroadcast); (g, EvReturn)]) |}).
Proof.
  intros Hg Hc Hint. unfold CondChan.step, Receive. rewrite Hg, Hc.
  destruct s as [[st cp cl] ts lg]. cbn [chan tasks log store capacity close] in *.
  subst cl. unfold Receive_loop. reduce_ops. split.
  - intros ->. reduce_ops. unfold Wait, set_task, emit. reduce_ops.
    by rewrite <- !app_assoc.
  - intros item rest ->. reduce_ops. rewrite int_wrap_incr_decr by done.
    destruct (nil_interface item); unfold Return, Panic, set_task, emit; reduce_ops;
      rewrite ?wake_wake; by rewrite <- !app_assoc.
Qed.

(** The critical section of a [Receive] that was woken in its loop. *)
Lemma Receive_woken g s :
  tasks s !! g = Some RecvWake →
  (store (chan s) = [] →
     step g s =
       {| chan := chan s; tasks := <[g := RecvWait]> (tasks s);
          log := log s ++ [(g, EvWait)] |}) ∧
  (∀ item rest, store (chan s) = item :: rest →
     step g s =
       {| chan := {| store := rest; capacity := int_wrap (capacity (chan s) - 1);
                     close := close (chan s) |};
          tasks := if nil_interface item then <[g := RecvPanic]> (tasks s)
                   else <[g := RecvRet item true]> (wake <$> tasks s);
          log := log s ++ [(g, EvNarrow); (g, EvRemove item)] ++
                   (if nil_interface item then [(g, EvPanic)]
                    else [(g, EvBroadcast); (g, EvReturn)]) |}).
Proof.
  intros Hg. unfold CondChan.step. rewrite Hg.
  destruct s as [[st cp cl] ts lg]. cbn [chan tasks log store capacity close] in *.
  unfold Receive_loop. reduce_ops. split.
  - intros ->. unfold Wait, set_task, emit. by reduce_ops.
  - intros item rest ->. reduce_ops.
    destruct (nil_interface item); unfold Return, Panic, set_task, emit; reduce_ops;
      by rewrite <- ?app_assoc.
Qed.

(** The events of one [Receive] on an open channel, under any schedule:
    widen, broadcast, one wait for every time it parks, and at its end
    narrow, remove, and then the panic or broadcast and return; the item
    is the one that was at the front of the store when the goroutine
    removed it. *)
Lemma Receive_trace g s :
  tasks s !! g = Some RecvCall → close (chan s) = false → ∀ sch,
  ∃ new, log (run step (g :: sch) s) = log s ++ new ∧
    ((∃ n,
        (tasks (run step (g :: sch) s) !! g = Some RecvWait ∨
         tasks (run step (g :: sch) s) !! g = Some RecvWake) ∧
        events_of g new = EvWiden :: EvBroadcast :: repeat EvWait (S n)) ∨
     (∃ n item rest sch1 sch2 t tail,
        tasks (run step (g :: sch) s) !! g = Some t ∧
        events_of g new =
          EvWiden :: EvBroadcast :: repeat EvWait n ++
          EvNarrow :: EvRemove item :: tail ∧
        (if nil_interface item then t = RecvPanic ∧ tail = [EvPanic]
         else t = RecvRet item true ∧ tail = [EvBroadcast; EvReturn]) ∧
        g :: sch = sch1 ++ g :: sch2 ∧
        store (chan (run step sch1 s)) = item :: rest ∧
        store (chan (step g (run step sch1 s))) = rest)).
Proof.
  intros Hg Hc sch. induction sch as [|g' sch IH] using rev_ind.
  - rewrite run_cons, run_nil. unfold CondChan.step, Receive. rewrite Hg, Hc.
    unfold Receive_loop. reduce_ops.
    destruct (store (chan s)) as [|item rest] eqn:Hst; reduce_ops; at_self.
    + exists ((g,.) <$> [EvWiden; EvBroadcast; EvWait]).
      split; [by rewrite <- !app_assoc|]. left. exists 0%nat.
      split; [by left|]. by rewrite events_of_self.
    + destruct (nil_interface item) eqn:Hnil; reduce_ops; at_self.
      * exists ((g,.) <$> [EvWiden; EvBroadcast; EvNarrow; EvRemove item; EvPanic]).
        split; [by rewrite <- !app_assoc|]. right.
        exists 0%nat, item, rest, [], [], RecvPanic, [EvPanic].
        rewrite events_of_self, run_nil, Hnil.
        unfold CondChan.step, Receive, Receive_loop. rewrite Hg, Hc. reduce_ops.
        rewrite Hst, Hnil. reduce_ops. by at_self.
      * exists ((g,.) <$> [EvWiden; EvBroadcast; EvNarrow; EvRemove item;
                           EvBroadcast; EvReturn]).
        split; [by rewrite <- !app_assoc|]. right.
        exists 0%nat, item, rest, [], [], (RecvRet item true), [EvBroadcast; EvReturn].
        rewrite events_of_self, run_nil, Hnil.
        unfold CondChan.step, Receive, Receive_loop. rewrite Hg, Hc. reduce_ops.
        rewrite Hst, Hnil. reduce_ops. by at_self.
  - change (g :: sch ++ [g']) with ((g :: sch) ++ [g']). rewrite run_snoc.
    set (s1 := run step (g :: sch) s) in *.
    destruct IH as (new & Hlog & Hform).
    destruct (decide (g' = g)) as [->|Hne].
    + destruct Hform as [(n & [Hw|Hw] & Hev)|
        (n & item & rest & sch1 & sch2 & t & tail & Hr & Hev & Hend & Hsch & Hf1 & Hf2)].
      * rewrite (step_parked g s1 Hw). exists new. split; [done|]. left. eauto.
      * assert (step g s1 = Receive_loop g s1) as Hstep.
        { unfold CondChan.step. by rewrite Hw. }
        rewrite Hstep. unfold Receive_loop.
        destruct (store (chan s1)) as [|item rest] eqn:Hst; reduce_ops; at_self.
        -- exists (new ++ ((g,.) <$> [EvWait])). split; [by rewrite Hlog, <- !app_assoc|].
           left. exists (S n). split; [by left|].
           rewrite events_of_app, events_of_self, Hev.
           rewrite <- !app_comm_cons. by rewrite <- repeat_cons.
        -- destruct (nil_interface item) eqn:Hnil; reduce_ops; at_self.
           ++ exists (new ++ ((g,.) <$> [EvNarrow; EvRemove item; EvPanic])).
              split; [by rewrite Hlog, <- !app_assoc|].
              right. exists (S n), item, rest, (g :: sch), [], RecvPanic, [EvPanic].
              rewrite events_of_app, events_of_self, Hev, Hnil.
              change (run step (g :: sch) s) with s1.
              split_and!; try done.
              rewrite Hstep. unfold Receive_loop. rewrite Hst, Hnil. reduce_ops.
              reflexivity.
           ++ exists (new ++ ((g,.) <$> [EvNarrow; EvRemove item; EvBroadcast; EvReturn])).
              split; [by rewrite Hlog, <- !app_assoc|].
              right.
              exists (S n), item, rest, (g :: sch), [], (RecvRet item true),
                     [EvBroadcast; EvReturn].
              rewrite events_of_app, events_of_self, Hev, Hnil.
              change (run step (g :: sch) s) with s1.
              split_and!; try done.
              rewrite Hstep. unfold Receive_loop. rewrite Hst, Hnil. reduce_ops.
              reflexivity.
      * destruct (Receive_ended_step g s1 item t tail Hr Hend) as [-> _].
        exists new. split; [done|]. right.
        exists n, item, rest, sch1, (sch2 ++ [g]), t, tail. split_and!; try done.
        change (g :: sch ++ [g]) with ((g :: sch) ++ [g]).
        rewrite Hsch. by rewrite <- app_assoc.
    + destruct (log_step g' s1) as (evs & Hlog').
      exists (new ++ ((g',.) <$> evs)).
      split; [by rewrite Hlog', Hlog, <- app_assoc|].
      rewrite events_of_app, events_of_other, app_nil_r by done.
      assert (Hne' : g ≠ g') by done.
      destruct Hform as [(n & Hw & Hev)|
        (n & item & rest & sch1 & sch2 & t & tail & Hr & Hev & Hend & Hsch & Hf1 & Hf2)].
      * left. exists n. split; [|done].
        destruct (step_other g g' s1 Hne') as [Heq|Heq]; rewrite Heq; [done|].
        destruct Hw as [Hw|Hw]; rewrite Hw; simpl; auto.
      * right. exists n, item, rest, sch1, (sch2 ++ [g']), t, tail.
        split_and!; try done.
        -- destruct (Receive_ended_step g s1 item t tail Hr Hend) as [_ Hwk].
           destruct (step_other g g' s1 Hne') as [Heq|Heq]; rewrite Heq, Hr; [done|].
           simpl. by rewrite Hwk.
        -- change (g :: sch ++ [g']) with ((g :: sch) ++ [g']).
           rewrite Hsch. by rewrite <- app_assoc.
Qed.

(** The two writes of a [Receive] to the capacity are the only ones: the
    field moves with the number of calls between them. *)
Lemma capacity_moves_with_widening s sch :
  is_int (capacity (chan s)) →
  capacity (chan (run step sch s)) =
  int_wrap (capacity (chan s) + Z.of_nat (widening (tasks (run step sch s)))
            - Z.of_nat (widening (tasks s))).
Proof.
  intros Hint.
  pose (c0 := capacity (chan s) - Z.of_nat (widening (tasks s))).
  assert (capacity (chan (run step sch s)) =
          int_wrap (c0 + Z.of_nat (widening (tasks (run step sch s))))) as ->.
  { apply (run_invariant step
             (λ s, capacity (chan s) = int_wrap (c0 + Z.of_nat (widening (tasks s))))).
    - intros g q. apply capacity_counts_step.
    - unfold c0. rewrite Z.sub_add. by rewrite int_wrap_id. }
  unfold c0. f_equal. lia.
Qed.

(** C3, as amended. A [Receive] that takes the lock on an open channel
    widens the capacity and broadcasts. Then, each time it has the lock,
    it waits when the store is empty, and is parked until another
    goroutine broadcasts;
    when the store is not empty it narrows the capacity and removes the
    front item, and then panics if the item is the nil interface value
    and else broadcasts and returns the item with [true]. Under every
    schedule its events are these, in this order. The capacity is at
    every moment its value at entry plus the number of [Receive] calls
    between their two writes minus their number at entry, so that it is
    the value at entry whenever the two numbers agree. *)
Theorem Receive_protocol g s :
  tasks s !! g = Some RecvCall → close (chan s) = false →
  is_int (capacity (chan s)) →
  (* the first critical section *)
  ((store (chan s) = [] →
      step g s =
        {| chan := {| store := []; capacity := int_wrap (capacity (chan s) + 1);
                      close := false |};
           tasks := <[g := RecvWait]> (wake <$> tasks s);
           log := log s ++ [(g, EvWiden); (g, EvBroadcast); (g, EvWait)] |}) ∧
   (∀ item rest, store (chan s) = item :: rest →
      step g s =
        {| chan := {| store := rest; capacity := capacity (chan s); close := false |};
           tasks := <[g := if nil_interface item then RecvPanic else RecvRet item true]>
                      (wake <$> tasks s);
           log := log s ++ [(g, EvWiden); (g, EvBroadcast); (g, EvNarrow);
                            (g, EvRemove item)] ++
                    (if nil_interface item then [(g, EvPanic)]
                     else [(g, EvBroadcast); (g, EvReturn)]) |})) ∧
  (* parked: it does not move, and another goroutine wakes it exactly
     when it broadcasts *)
  (∀ q, tasks q !! g = Some RecvWait →
     step g q = q ∧
     ∀ h, h ≠ g →
       ∃ evs, log (step h q) = log q ++ ((h,.) <$> evs) ∧
         tasks (step h q) !! g =
           Some (if existsb is_broadcast evs then RecvWake else RecvWait)) ∧
  (* a critical section after a wake-up *)
  (∀ q, tasks q !! g = Some RecvWake →
     (store (chan q) = [] →
        step g q =
          {| chan := chan q; tasks := <[g := RecvWait]> (tasks q);
             log := log q ++ [(g, EvWait)] |}) ∧
     (∀ item rest, store (chan q) = item :: rest →
        step g q =
          {| chan := {| store := rest; capacity := int_wrap (capacity (chan q) - 1);
                        close := close (chan q) |};
             tasks := if nil_interface item then <[g := RecvPanic]> (tasks q)
                      else <[g := RecvRet item true]> (wake <$> tasks q);
             log := log q ++ [(g, EvNarrow); (g, EvRemove item)] ++
                      (if nil_interface item then [(g, EvPanic)]
                       else [(g, EvBroadcast); (g, EvReturn)]) |})) ∧
  (* under every schedule *)
  (∀ sch, let s' := run step (g :: sch) s in
     (∃ new, log s' = log s ++ new ∧
       ((∃ n,
           (tasks s' !! g = Some RecvWait ∨ tasks s' !! g = Some RecvWake) ∧
           events_of g new = EvWiden :: EvBroadcast :: repeat EvWait (S n)) ∨
        (∃ n item rest sch1 sch2 t tail,
           tasks s' !! g = Some t ∧
           events_of g new =
             EvWiden :: EvBroadcast :: repeat EvWait n ++
             EvNarrow :: EvRemove item :: tail ∧
           (if nil_interface item then t = RecvPanic ∧ tail = [EvPanic]
            else t = RecvRet item true ∧ tail = [EvBroadcast; EvReturn]) ∧
           g :: sch = sch1 ++ g :: sch2 ∧
           store (chan (run step sch1 s)) = item :: rest ∧
           store (chan (step g (run step sch1 s))) = rest))) ∧
     capacity (chan s') =
       int_wrap (capacity (chan s) + Z.of_nat (widening (tasks s'))
                 - Z.of_nat (widening (tasks s))) ∧
     (widening (tasks s') = widening (tasks s) →
      capacity (chan s') = capacity (chan s))).
Proof.
  intros Hg Hc Hint. split_and!.
  - by apply Receive_entry.
  - by apply Receive_entry.
  - intros q Hq. split; [by apply step_parked|].
    intros h Hne. by apply parked_until_broadcast.
  - intros q Hq. by apply Receive_woken.
  - intros sch s'. split_and!.
    + by apply Receive_trace.
    + by apply capacity_moves_with_widening.
    + intros Hw. unfold s'. rewrite capacity_moves_with_widening by done.
      fold s'. rewrite Hw. rewrite Z.add_simpl_r. by apply int_wrap_id.
Qed.

End Facts.

Lemma Receive_closed_witness :
  let s := spawn [RecvCall] {| store := [5; 6]; capacity := 2; close := true |} in
  chan (step 0 0%nat s) = chan s ∧
  tasks (step 0 0%nat s) = <[0%nat := RecvRet 0 false]> (tasks s) ∧
  tasks (step 0 0%nat s) !! 0%nat = Some (RecvRet 0 false) ∧
  log (step 0 0%nat s) = log s ++ [(0%nat, EvReturn)].
Proof.
  apply (Receive_closed 0 0%nat
           (spawn [RecvCall] {| store := [5; 6]; capacity := 2; close := true |}));
    reflexivity.
Defined.

Lemma Close_once_witness :
  let s := spawn [CloseCall; CloseCall] (NewChannel (G := Z) 2) in
  let s' := step 0 0%nat s in
  (tasks (step 0 0%nat s) !! 0%nat = Some (CloseRet None) ∧
   chan (step 0 0%nat s) =
     {| store := store (chan s); capacity := capacity (chan s); close := true |} ∧
   ∀ sch, close (chan (run (step 0) sch (step 0 0%nat s))) = true) ∧
  (tasks (step 0 1%nat s') !! 1%nat = Some (CloseRet (Some "close is already closed"%string)) ∧
   chan (step 0 1%nat s') = chan s').
Proof.
  apply (Close_once 0 0%nat (spawn [CloseCall; CloseCall] (NewChannel 2)) 1%nat
           (step 0 0%nat (spawn [CloseCall; CloseCall] (NewChannel 2))));
    reflexivity.
Defined.

(** The state in which [Send(2)] is parked keeps the closed channel and
    the parked (or woken) sender, whoever is scheduled. *)
Lemma closed_full_step g (s : @system Z) :
  (chan s = closed_full ∧
   (tasks s = [SendRet None; SendWait 2; CloseRet None] ∨
    tasks s = [SendRet None; SendWake 2; CloseRet None])) →
  chan (step 0 g s) = closed_full ∧
  (tasks (step 0 g s) = [SendRet None; SendWait 2; CloseRet None] ∨
   tasks (step 0 g s) = [SendRet None; SendWake 2; CloseRet None]).
Proof.
  destruct s as [ch ts lg]. simpl. intros [-> [-> | ->]];
    destruct g as [|[|[|g]]]; vm_compute; auto.
Qed.

(** C1, on the code. A channel of capacity 1 holds one message; [Send(2)]
    parks in [cond.Wait()]; [Close()] wakes it. Under every schedule from
    there the sender finds the store as long as the capacity and parks
    again: it never returns, with the closed error or otherwise. *)
Theorem blocked_Send_hangs_after_Close sch :
  tasks (run (step 0) [0; 1]%nat full_then_closed) !! 1%nat = Some (SendWait 2) ∧
  let s := run (step 0) ([0; 1; 2]%nat ++ sch) full_then_closed in
  chan s = closed_full ∧
  (tasks s !! 1%nat = Some (SendWait 2) ∨ tasks s !! 1%nat = Some (SendWake 2)).
Proof.
  split; [reflexivity|]. cbv zeta. rewrite run_app.
  pose proof (run_invariant (step 0)
    (λ s, chan s = closed_full ∧
          (tasks s = [SendRet None; SendWait 2; CloseRet None] ∨
           tasks s = [SendRet None; SendWake 2; CloseRet None]))
    (λ g s, closed_full_step g s) sch
    (run (step 0) [0; 1; 2]%nat full_then_closed)) as Hinv.
  destruct Hinv as [Hch Hts].
  { vm_compute. auto. }
  split; [done|]. destruct Hts as [-> | ->]; auto.
Qed.

(** C10 as stated fails: on a channel made with capacity -1, a [Receive]
    that is waiting has widened the capacity to 0, and [Send] waits. *)
Lemma Send_never_waits_counterexample :
  ¬ (∀ (c : Z) (ts : list (@task Z)) (sch : list nat) (g : nat) (v : Z),
       c < 0 →
       let s := run (step 0) sch (spawn ts (NewChannel c)) in
       close (chan s) = false →
       tasks s !! g = Some (SendCall v) →
       tasks (step 0 g s) !! g = Some (SendRet None)).
Proof.
  intros H.
  specialize (H (-1) [RecvCall; SendCall 7] [0%nat] 1%nat 7).
  assert (tasks (step 0 1%nat (run (step 0) [0%nat] negative_with_receiver)) !! 1%nat
          = Some (SendWait 7)) as Hwait by reflexivity.
  unfold negative_with_receiver in Hwait. rewrite H in Hwait; [discriminate|lia|done..].
Qed.

Lemma Send_negative_capacity_witness :
  let s := spawn [SendCall 7] (NewChannel (-1)) in
  let s' := run (step 0) (seq 0 (length [1; 2; 3]))
              (spawn (SendCall <$> [1; 2; 3]) (NewChannel (-2))) in
  (tasks (step 0 0%nat s) !! 0%nat = Some (SendRet None) ∧
   store (chan (step 0 0%nat s)) = store (chan s) ++ [7] ∧
   capacity (chan (step 0 0%nat s)) = capacity (chan s)) ∧
  (store (chan s') = [1; 2; 3] ∧ length (store (chan s')) = length [1; 2; 3] ∧
   Forall (λ t, t = SendRet None) (tasks s')) ∧
  ¬ within_capacity (chan s).
Proof.
  destruct (Send_negative_capacity 0 0%nat 7 (spawn [SendCall 7] (NewChannel (-1))) (-2)
              [1; 2; 3]) as (_ & H1 & _ & H2 & H3 & _);
    [simpl; lia|reflexivity|reflexivity|lia|unfold is_int; lia|].
  exact (conj H1 (conj H2 H3)).
Defined.


(** C3 as stated fails in its last clause: of two [Receive] calls that
    wait on a channel of capacity 0, the first entered at capacity 0, and
    when it returns the other one still holds the capacity at 1. *)
Lemma Receive_capacity_counterexample :
  ¬ (∀ (s : @system Z) (g : nat) (sch : list nat) (item : Z) (ok : bool),
       tasks s !! g = Some RecvCall → close (chan s) = false →
       is_int (capacity (chan s)) →
       let before := run (step 0) (g :: sch) s in
       tasks before !! g = Some RecvWake →
       tasks (step 0 g before) !! g = Some (RecvRet item ok) →
       capacity (chan (step 0 g before)) = capacity (chan s)).
Proof.
  intros H.
  specialize (H two_receivers 0%nat [1; 2]%nat 7 true).
  assert (capacity (chan (step 0 0%nat (run (step 0) [0; 1; 2]%nat two_receivers))) = 1)
    as Hcap by reflexivity.
  rewrite H in Hcap; try reflexivity; [discriminate|]. unfold is_int. simpl. lia.
Qed.

(** The hand-off of scenario A: a [Receive] on a channel of capacity 0
    parks, [Send(7)] finds room, the receiver takes 7. *)
Lemma Receive_protocol_witness :
  step 0 0%nat rendezvous =
    {| chan := NewChannel 1; tasks := [RecvWait; SendCall 7];
       log := [(0%nat, EvWiden); (0%nat, EvBroadcast); (0%nat, EvWait)] |} ∧
  let s' := run (step 0) [0; 1; 0]%nat rendezvous in
  tasks s' !! 0%nat = Some (RecvRet 7 true) ∧
  tasks s' !! 1%nat = Some (SendRet None) ∧
  store (chan s') = [] ∧
  capacity (chan s') = 0.
Proof.
  destruct (Receive_protocol 0 0%nat rendezvous) as ((Hentry & _) & _ & _ & Hsch);
    [reflexivity|reflexivity|unfold is_int; simpl; lia|].
  split; [exact (Hentry eq_refl)|].
  destruct (Hsch [1; 0]%nat) as (_ & _ & Hcap).
  split_and!; [reflexivity..|]. apply Hcap. reflexivity.
Defined.

(** A [Receive] of the nil value of an interface type: the message is
    removed and the capacity narrowed, and the call panics. *)
Lemma Receive_of_nil_panics :
  let s' := run (step None) [0; 1]%nat nil_message in
  tasks s' = [SendRet None; RecvPanic] ∧ chan s' = NewChannel 1 ∧
  events_of 1 (log s') = [EvWiden; EvBroadcast; EvNarrow; EvRemove None; EvPanic].
Proof. by vm_compute. Qed.

End CondChanSpec.

(** ** The channel: what its callers can rely on *)

Module CondChanFacts.
Import CondChan.

Section Facts.
Context {G : Type} `{!NilInterface G}.
Variable zero : G.
Implicit Types (s : @system G) (g h : nat) (sch : list nat) (t : @task G).

Local Abbreviation step := (CondChan.step zero).

Ltac open_ops :=
  unfold CondChan.step, Send, Send_loop, Receive, Receive_loop, Close in *.

Ltac run_ops :=
  cbn [chan tasks log store capacity close Return Panic Wait Broadcast PushBack
       capacity_incr capacity_decr set_close emit set_chan set_task] in *.

Ltac own_task :=
  rewrite ?list_lookup_insert_eq
    by (rewrite ?length_fmap; eapply lookup_lt_Some; eassumption).

(** *** Order *)

Lemma log_mono g s e : e ∈ log s → e ∈ log (step g s).
Proof.
  intros He. destruct (CondChanSpec.log_step zero g s) as [evs ->].
  apply elem_of_app. by left.
Qed.

(** The store is what has been pushed and not yet removed, in push
    order. *)
Lemma order_step g s :
  removed (log s) ++ store (chan s) = pushed (log s) →
  removed (log (step g s)) ++ store (chan (step g s)) = pushed (log (step g s)).
Proof.
  intros Hinv. open_ops. unfold removed, pushed in *.
  repeat case_match; run_ops; rewrite ?omap_app; simpl; rewrite ?app_nil_r;
    try done;
    try (match goal with H : store (chan s) = _ |- _ => rewrite ?H end);
    rewrite <- ?Hinv; rewrite <- ?app_assoc;
    try (match goal with H : store (chan s) = _ |- _ => rewrite ?H end); done.
Qed.

Lemma message_of_wake t : message_of (wake t) = message_of t.
Proof. by destruct t. Qed.

Lemma message_of_step g h s m :
  message_of <$> (tasks (step g s) !! h) = Some (Some m) →
  message_of <$> (tasks s !! h) = Some (Some m).
Proof.
  destruct (decide (h = g)) as [->|Hne].
  - open_ops. repeat case_match; run_ops; own_task;
      try (match goal with H : tasks s !! _ = _ |- _ => rewrite ?H end);
      simpl; try done; congruence.
  - destruct (CondChanSpec.step_other zero h g s Hne) as [Heq|Heq]; rewrite Heq; [done|].
    destruct (tasks s !! h); [|done]. simpl. by rewrite message_of_wake.
Qed.

Lemma pushed_step g h s m :
  (h, EvPushBack m) ∈ log (step g s) →
  (h, EvPushBack m) ∈ log s ∨ (h = g ∧ message_of <$> (tasks s !! g) = Some (Some m)).
Proof.
  intros Hin. open_ops. repeat case_match; run_ops;
    rewrite ?elem_of_app, ?list_elem_of_singleton in Hin;
    repeat (match goal with H : _ ∨ _ |- _ => destruct H end);
    try (by left); try discriminate;
    match goal with H : (_, _) = (_, _) |- _ => injection H as -> -> end;
    by right.
Qed.

Lemma returned_step g h s item :
  tasks (step g s) !! h = Some (RecvRet item true) →
  tasks s !! h = Some (RecvRet item true) ∨ (h, EvRemove item) ∈ log (step g s).
Proof.
  destruct (decide (h = g)) as [->|Hne].
  - intros Hh. open_ops. repeat case_match; run_ops;
      rewrite ?list_lookup_insert_eq in Hh
        by (rewrite ?length_fmap; eapply lookup_lt_Some; eassumption);
      try (left; congruence);
      injection Hh as ->; right;
      rewrite ?elem_of_app, ?list_elem_of_singleton; auto 10.
  - intros Hh. left.
    destruct (CondChanSpec.step_other zero h g s Hne) as [Heq|Heq]; rewrite Heq in Hh; [done|].
    destruct (tasks s !! h) as [[]|]; simpl in Hh; congruence.
Qed.

(** X4. Messages come out in the order they went in, under every
    schedule: what has been removed, followed by what is in the store, is
    what has been pushed. A [Receive] that returns [true] returns a message
    it removed, and every message pushed is the argument of a [Send]. *)
Theorem received_in_push_order c (ts : list (@task G)) sch :
  Forall (λ t, is_call t = true) ts →
  let s := run step sch (spawn ts (NewChannel c)) in
  removed (log s) ++ store (chan s) = pushed (log s) ∧
  (∀ g item, tasks s !! g = Some (RecvRet item true) → (g, EvRemove item) ∈ log s) ∧
  (∀ g m, (g, EvPushBack m) ∈ log s → ts !! g = Some (SendCall m)).
Proof.
  intros Hts s.
  pose (Inv := λ s : @system G,
    removed (log s) ++ store (chan s) = pushed (log s) ∧
    (∀ g item, tasks s !! g = Some (RecvRet item true) → (g, EvRemove item) ∈ log s) ∧
    (∀ g m, (g, EvPushBack m) ∈ log s → ts !! g = Some (SendCall m)) ∧
    (∀ g m, message_of <$> (tasks s !! g) = Some (Some m) → ts !! g = Some (SendCall m))).
  assert (Inv s) as (H1 & H2 & H3 & _); [|done].
  apply (run_invariant step Inv).
  - intros g s0 (I1 & I2 & I3 & I4). split_and!.
    + by apply order_step.
    + intros h item [Hh|Hh]%returned_step; [|done]. by apply log_mono, I2.
    + intros h m [Hh|[-> Hh]]%pushed_step; [by apply I3|by apply I4].
    + intros h m Hh%message_of_step. by apply I4.
  - split_and!; try done.
    + intros g item Hg. simpl in Hg. rewrite Forall_lookup in Hts.
      by specialize (Hts g _ Hg).
    + intros g m Hg. by apply elem_of_nil in Hg.
    + intros g m Hg. simpl in Hg. destruct (ts !! g) as [t|] eqn:Ht; [|done].
      simpl in Hg. injection Hg as Hg. rewrite Forall_lookup in Hts.
      specialize (Hts g _ Ht). destruct t; simpl in *; congruence.
Qed.

(** *** The bound *)

Lemma length_tasks_step g s : length (tasks (step g s)) = length (tasks s).
Proof.
  open_ops. repeat case_match; run_ops;
    rewrite ?length_insert, ?length_fmap; done.
Qed.

Lemma widening_le (ts : list (@task G)) : (widening ts ≤ length ts)%nat.
Proof. apply length_filter. Qed.

Lemma bound_step c0 g s :
  0 ≤ c0 → c0 + Z.of_nat (length (tasks s)) < 2 ^ 63 - 1 →
  capacity (chan s) = c0 + Z.of_nat (widening (tasks s)) ∧
    Len (chan s) ≤ capacity (chan s) →
  capacity (chan (step g s)) = c0 + Z.of_nat (widening (tasks (step g s))) ∧
    Len (chan (step g s)) ≤ capacity (chan (step g s)).
Proof.
  intros Hc0 Hfit [Hcap Hlen].
  assert (capacity (chan (step g s)) = c0 + Z.of_nat (widening (tasks (step g s))))
    as Hcap'.
  { rewrite (CondChanSpec.capacity_counts_step zero c0 g s).
    - apply CondChanSpec.int_wrap_id. unfold is_int.
      pose proof (widening_le (tasks (step g s))) as Hle.
      rewrite length_tasks_step in Hle. lia.
    - rewrite Hcap. symmetry. apply CondChanSpec.int_wrap_id. unfold is_int.
      pose proof (widening_le (tasks s)). lia. }
  split; [done|]. rewrite Hcap'. clear Hcap'.
  pose proof (widening_le (tasks s)) as Hw.
  assert (is_int (capacity (chan s) + 1) ∧ is_int (capacity (chan s)) ∧
          (0 < Len (chan s) → is_int (capacity (chan s) - 1))) as (Hi1 & Hi0 & Hi2).
  { unfold is_int. lia. }
  revert Hlen. unfold Len. intros Hlen.
  assert (Len (chan (step g s)) ≤ capacity (chan (step g s))) as Hgoal.
  { open_ops. unfold Len in *.
    repeat case_match; run_ops; rewrite ?length_app; simpl;
      rewrite ?(CondChanSpec.int_wrap_id (capacity (chan s) + 1)) by done;
      try replace (capacity (chan s) + 1 - 1) with (capacity (chan s)) by lia;
      rewrite ?(CondChanSpec.int_wrap_id (capacity (chan s))) by done;
      simpl in *;
      rewrite ?(CondChanSpec.int_wrap_id (capacity (chan s) - 1)) by (apply Hi2; lia);
      try (match goal with H : store (chan s) = _ |- _ => rewrite ?H in * end);
      simpl in *; try done; lia. }
  revert Hgoal. unfold Len.
  rewrite (CondChanSpec.capacity_counts_step zero c0 g s).
  - rewrite CondChanSpec.int_wrap_id; [done|]. unfold is_int.
    pose proof (widening_le (tasks (step g s))) as Hle.
    rewrite length_tasks_step in Hle. lia.
  - rewrite Hcap. symmetry. apply CondChanSpec.int_wrap_id. unfold is_int. lia.
Qed.

(** X5. On a channel made with a capacity [c0] that is not negative (and
    small enough for the counter not to wrap), under every schedule: the
    capacity field is [c0] plus the number of waiting receivers, and the
    store is never longer than the capacity field. When no [Receive] is
    waiting the field is [c0] again and the store holds at most [c0]
    messages. *)
Theorem store_within_capacity c0 (ts : list (@task G)) sch :
  0 ≤ c0 → c0 + Z.of_nat (length ts) < 2 ^ 63 - 1 →
  Forall (λ t, is_call t = true) ts →
  let s := run step sch (spawn ts (NewChannel c0)) in
  capacity (chan s) = c0 + Z.of_nat (widening (tasks s)) ∧
  0 ≤ Len (chan s) ≤ capacity (chan s) ∧
  (widening (tasks s) = 0%nat →
     capacity (chan s) = c0 ∧
     within_capacity {| store := store (chan s); capacity := c0; close := close (chan s) |}).
Proof.
  intros Hc0 Hfit Hts s.
  assert (length (tasks s) = length ts ∧
          capacity (chan s) = c0 + Z.of_nat (widening (tasks s)) ∧
          Len (chan s) ≤ capacity (chan s)) as (_ & Hcap & Hlen).
  { apply (run_invariant step
      (λ s, length (tasks s) = length ts ∧
            capacity (chan s) = c0 + Z.of_nat (widening (tasks s)) ∧
            Len (chan s) ≤ capacity (chan s))).
    - intros g s0 (Hl & Hb). split; [by rewrite length_tasks_step|].
      apply bound_step; [done| |done]. by rewrite Hl.
    - simpl. rewrite CondChanSpec.widening_calls by done.
      unfold Len. simpl. split_and!; [done|lia|lia]. }
  split; [done|]. split; [unfold Len in *; lia|].
  intros Hw. rewrite Hw in Hcap. unfold within_capacity, Len in *. simpl. lia.
Qed.

(** *** Capacity 0 *)

(** One step from a state that is written out, computed; the test of the
    message is then decided by [Hnil]. *)
Ltac run_step Hnil :=
  match goal with
  | |- context [CondChan.step ?z ?g (mkSystem ?c ?t ?l)] =>
      let e := eval vm_compute in (CondChan.step z g (mkSystem c t l)) in
      change (CondChan.step z g (mkSystem c t l)) with e;
      rewrite ?Hnil; cbv beta iota
  end.

Lemma hand_off_step v g s :
  nil_interface v = false →
  (chan s, tasks s) ∈ hand_off_states v →
  (chan (step g s), tasks (step g s)) ∈ hand_off_states v.
Proof.
  unfold nil_interface. intros Hnil.
  destruct s as [ch ts lg]. unfold hand_off_states. simpl.
  rewrite !elem_of_cons, elem_of_nil.
  intros [H|[H|[H|[H|[H|[H|[]]]]]]]; injection H as -> ->;
    destruct g as [|[|g]]; vm_compute; rewrite ?Hnil; tauto.
Qed.

(** X6. The hand-off on a channel of capacity 0 of a message that is not
    the nil interface value does not depend on who comes first: after any
    schedule, letting the receiver, the sender and the receiver move once
    more ends with [Send] returned [nil], [Receive] returned the message
    and [true], the store empty and the capacity 0. *)
Theorem hand_off_any_order v sch :
  nil_interface v = false →
  let s := run step (sch ++ [0; 1; 0]%nat) (hand_off v) in
  tasks s = [RecvRet v true; SendRet None] ∧ chan s = NewChannel 0.
Proof.
  intros Hnil s. unfold s. rewrite run_app.
  assert ((chan (run step sch (hand_off v)), tasks (run step sch (hand_off v)))
            ∈ hand_off_states v) as Hin.
  { apply (run_invariant step (λ s, (chan s, tasks s) ∈ hand_off_states v)).
    - intros g s0. by apply hand_off_step.
    - by left. }
  destruct (run step sch (hand_off v)) as [ch ts lg]. revert Hin.
  rewrite !run_cons, run_nil.
  unfold hand_off_states. cbn [chan tasks]. rewrite !elem_of_cons, elem_of_nil.
  unfold nil_interface in Hnil.
  intros [H|[H|[H|[H|[H|[H|[]]]]]]]; injection H as -> ->;
    do 3 run_step Hnil; by vm_compute.
Qed.

(** X7. Without a receiver nothing passes a channel of capacity 0: every
    [Send] parks, under every schedule, and the store stays empty. *)
Theorem lone_Send_blocks (vs : list G) sch :
  let s := run step sch (spawn (SendCall <$> vs) (NewChannel 0)) in
  chan s = NewChannel 0 ∧
  ∀ g v, vs !! g = Some v →
    tasks s !! g = Some (SendCall v) ∨ tasks s !! g = Some (SendWait v).
Proof.
  intros s.
  pose (Inv := λ s : @system G,
    chan s = NewChannel 0 ∧ length (tasks s) = length vs ∧
    ∀ g t, tasks s !! g = Some t →
      ∃ v, vs !! g = Some v ∧ (t = SendCall v ∨ t = SendWait v)).
  assert (Inv s) as (Hch & Hlen & Hts).
  { apply (run_invariant step Inv).
    - intros g s0 (Hch & Hlen & Hts). unfold CondChan.step.
      destruct (tasks s0 !! g) as [t|] eqn:Hg; [|done].
      destruct (Hts g t Hg) as (v & Hv & [->| ->]); [|done].
      unfold Send, Send_loop. rewrite Hch. simpl. unfold Inv. run_ops.
      split_and!; [done|by rewrite length_insert|].
      intros h t Hh. destruct (decide (g = h)) as [->|Hne].
      + rewrite list_lookup_insert_eq in Hh by (by eapply lookup_lt_Some).
        injection Hh as <-. eauto.
      + rewrite list_lookup_insert_ne in Hh by done. by apply Hts.
    - unfold Inv. simpl. split_and!; [done|by rewrite length_fmap|].
      intros g t Hg. rewrite list_lookup_fmap in Hg.
      destruct (vs !! g) as [v|]; [|done]. injection Hg as <-. eauto. }
  split; [done|]. intros g v Hv.
  destruct (lookup_lt_is_Some_2 (tasks s) g) as [t Ht].
  { rewrite Hlen. by eapply lookup_lt_Some. }
  destruct (Hts g t Ht) as (v' & Hv' & Hform).
  assert (v' = v) as -> by congruence. rewrite Ht.
  destruct Hform as [->| ->]; auto.
Qed.

(** *** After [Close] *)

Lemma is_widening_wake t : is_widening (wake t) = is_widening t.
Proof. by destruct t. Qed.

Lemma stranded_step g s :
  close (chan s) = true → Forall (λ t, is_widening t = false) (tasks s) →
  close (chan (step g s)) = true ∧
  Forall (λ t, is_widening t = false) (tasks (step g s)) ∧
  store (chan s) `prefix_of` store (chan (step g s)).
Proof.
  intros Hc Hnw. split; [by apply CondChanSpec.close_step|].
  assert (Forall (λ t, is_widening t = false) (wake <$> tasks s)) as Hnw'.
  { apply Forall_fmap. eapply Forall_impl; [done|].
    intros t Ht. simpl. by rewrite is_widening_wake. }
  open_ops. destruct (tasks s !! g) as [t|] eqn:Hg; [|done].
  rewrite Forall_lookup in Hnw. pose proof (Hnw g t Hg) as Ht.
  rewrite <- Forall_lookup in Hnw.
  destruct t; try done; rewrite ?Hc; repeat case_match; run_ops;
    (split; [by apply Forall_insert|]); try done.
  - by apply prefix_app_r.
Qed.

Lemma late_Receive_step g h s :
  close (chan s) = true →
  tasks s !! h = Some RecvCall ∨ tasks s !! h = Some (RecvRet zero false) →
  tasks (step g s) !! h = Some RecvCall ∨
  tasks (step g s) !! h = Some (RecvRet zero false).
Proof.
  intros Hc Hh. destruct (decide (h = g)) as [->|Hne].
  - unfold CondChan.step. destruct Hh as [Hh|Hh]; rewrite Hh; [|by right].
    unfold Receive. rewrite Hc. run_ops. right.
    apply list_lookup_insert_eq. by eapply lookup_lt_Some.
  - destruct (CondChanSpec.step_other zero h g s Hne) as [Heq|Heq]; rewrite Heq; [done|].
    destruct Hh as [Hh|Hh]; rewrite Hh; auto.
Qed.

(** X8. What the store holds when the channel is closed stays there: with
    no [Receive] waiting at that moment, under every schedule afterwards
    no message is ever removed, and every [Receive] that is called returns
    the zero value and [false], whatever the store holds. *)
Theorem Close_strands_the_store s sch :
  close (chan s) = true → Forall (λ t, is_widening t = false) (tasks s) →
  store (chan s) `prefix_of` store (chan (run step sch s)) ∧
  ∀ g, tasks s !! g = Some RecvCall →
    tasks (run step sch s) !! g = Some RecvCall ∨
    tasks (run step sch s) !! g = Some (RecvRet zero false).
Proof.
  intros Hc Hnw.
  pose (Inv := λ s1 : @system G,
    close (chan s1) = true ∧ Forall (λ t, is_widening t = false) (tasks s1) ∧
    store (chan s) `prefix_of` store (chan s1) ∧
    ∀ g, tasks s !! g = Some RecvCall →
      tasks s1 !! g = Some RecvCall ∨ tasks s1 !! g = Some (RecvRet zero false)).
  assert (Inv (run step sch s)) as (_ & _ & Hpre & Hrecv); [|done].
  apply (run_invariant step Inv).
  - intros g s1 (Hc1 & Hnw1 & Hpre & Hrecv).
    destruct (stranded_step g s1 Hc1 Hnw1) as (Hc2 & Hnw2 & Hpre2).
    split_and!; [done|done|by etrans|].
    intros h Hh. apply late_Receive_step; [done|]. by apply Hrecv.
  - split_and!; [done|done|done|]. intros g Hg. by left.
Qed.

Lemma is_pending_send_wake t :
  is_pending_send t = false → is_pending_send (wake t) = false.
Proof. by destruct t. Qed.

Lemma drained_step g s :
  close (chan s) = true → store (chan s) = [] →
  Forall (λ t, is_pending_send t = false) (tasks s) →
  close (chan (step g s)) = true ∧ store (chan (step g s)) = [] ∧
  Forall (λ t, is_pending_send t = false) (tasks (step g s)).
Proof.
  intros Hc Hst Hnp. open_ops.
  destruct (tasks s !! g) as [t|] eqn:Hg; [|done].
  rewrite Forall_lookup in Hnp. pose proof (Hnp g t Hg) as Ht.
  rewrite <- Forall_lookup in Hnp.
  destruct t; try done; rewrite ?Hc, ?Hst; run_ops;
    (split_and!; [done..|]); by apply Forall_insert.
Qed.

Lemma waiting_step g h s :
  store (chan s) = [] →
  tasks s !! h = Some RecvWait ∨ tasks s !! h = Some RecvWake →
  tasks (step g s) !! h = Some RecvWait ∨ tasks (step g s) !! h = Some RecvWake.
Proof.
  intros Hst Hh. destruct (decide (h = g)) as [->|Hne].
  - unfold CondChan.step. destruct Hh as [Hh|Hh]; rewrite Hh; [by left|].
    unfold Receive_loop. rewrite Hst. run_ops. left.
    apply list_lookup_insert_eq. by eapply lookup_lt_Some.
  - destruct (CondChanSpec.step_other zero h g s Hne) as [Heq|Heq]; rewrite Heq; [done|].
    destruct Hh as [Hh|Hh]; rewrite Hh; auto.
Qed.

(** X9. [Close] does not release a [Receive] that waits on an empty
    store: when no [Send] is inside its wait loop, under every schedule
    after the close the store stays empty and the receiver stays in its
    wait. *)
Theorem waiting_Receive_hangs_after_Close s sch :
  close (chan s) = true → store (chan s) = [] →
  Forall (λ t, is_pending_send t = false) (tasks s) →
  store (chan (run step sch s)) = [] ∧
  ∀ g, tasks s !! g = Some RecvWait ∨ tasks s !! g = Some RecvWake →
    tasks (run step sch s) !! g = Some RecvWait ∨
    tasks (run step sch s) !! g = Some RecvWake.
Proof.
  intros Hc Hst Hnp.
  pose (Inv := λ s1 : @system G,
    close (chan s1) = true ∧ store (chan s1) = [] ∧
    Forall (λ t, is_pending_send t = false) (tasks s1) ∧
    ∀ g, tasks s !! g = Some RecvWait ∨ tasks s !! g = Some RecvWake →
      tasks s1 !! g = Some RecvWait ∨ tasks s1 !! g = Some RecvWake).
  assert (Inv (run step sch s)) as (_ & Hst' & _ & Hw); [|done].
  apply (run_invariant step Inv).
  - intros g s1 (Hc1 & Hst1 & Hnp1 & Hw).
    destruct (drained_step g s1 Hc1 Hst1 Hnp1) as (Hc2 & Hst2 & Hnp2).
    split_and!; [done..|]. intros h Hh. apply waiting_step; [done|]. by apply Hw.
  - split_and!; [done..|]. by intros g Hg.
Qed.

(** *** Sends, then receives *)

Lemma wake_settled (l : list (@task G)) :
  Forall (λ t, wake t = t) l → wake <$> l = l.
Proof. induction 1 as [|t l Ht _ IH]; [done|]. by rewrite fmap_cons, Ht, IH. Qed.

Lemma wake_row (pre mid post : list (@task G)) :
  Forall (λ t, wake t = t) pre → Forall (λ t, wake t = t) mid →
  Forall (λ t, wake t = t) post →
  wake <$> (pre ++ mid ++ post) = pre ++ mid ++ post.
Proof. intros. apply wake_settled. by rewrite !Forall_app. Qed.

(** Senders that run one after the other while there is room all push and
    return [nil]. *)
Lemma sends_fill (vs : list G) : ∀ (pre post : list (@task G)) s,
  Forall (λ t, wake t = t) pre → Forall (λ t, wake t = t) post →
  tasks s = pre ++ (SendCall <$> vs) ++ post →
  close (chan s) = false →
  Len (chan s) + Z.of_nat (length vs) ≤ capacity (chan s) →
  chan (run step (seq (length pre) (length vs)) s) =
    {| store := store (chan s) ++ vs; capacity := capacity (chan s); close := false |} ∧
  tasks (run step (seq (length pre) (length vs)) s) =
    pre ++ replicate (length vs) (SendRet None) ++ post.
Proof.
  induction vs as [|v vs IH]; intros pre post s Hpre Hpost Hts Hc Hroom.
  - simpl. rewrite app_nil_r. split; [|done]. destruct (chan s). simpl in *. by subst.
  - cbn [length seq]. rewrite run_cons.
    assert (tasks s !! length pre = Some (SendCall v)) as Hg.
    { rewrite Hts, fmap_cons. by apply list_lookup_middle. }
    assert (step (length pre) s =
            Return (length pre) (SendRet None)
              (Broadcast (length pre) (PushBack (length pre) v s))) as ->.
    { unfold CondChan.step, Send, Send_loop. rewrite Hg, Hc.
      destruct (Z.eqb_spec (Len (chan s)) (capacity (chan s))) as [Heq|]; [|done].
      simpl in Hroom. lia. }
    set (s1 := Return _ _ _).
    destruct (IH (pre ++ [SendRet None]) post s1) as [Hch' Hts'].
    + apply Forall_app. split; [done|]. by constructor.
    + done.
    + subst s1. run_ops. rewrite Hts.
      rewrite wake_row; [|done| |done].
      * rewrite fmap_cons. rewrite insert_app_r_alt by lia.
        rewrite Nat.sub_diag. simpl. by rewrite <- app_assoc.
      * apply Forall_fmap. by apply Forall_true.
    + done.
    + subst s1. run_ops. unfold Len in *. simpl. rewrite length_app. simpl in *. lia.
    + rewrite length_app in Hch', Hts'. simpl in Hch', Hts'.
      rewrite Nat.add_1_r in Hch', Hts'. rewrite Hch', Hts'. subst s1. run_ops.
      split.
      * by rewrite <- app_assoc.
      * by rewrite <- app_assoc.
Qed.

(** Receivers that run one after the other while the store holds a message
    for each take the messages from its front, in order. *)
Lemma receives_drain (vs : list G) : ∀ (pre post : list (@task G)) rest s,
  Forall (λ t, wake t = t) pre → Forall (λ t, wake t = t) post →
  tasks s = pre ++ replicate (length vs) RecvCall ++ post →
  close (chan s) = false → is_int (capacity (chan s)) →
  store (chan s) = vs ++ rest →
  Forall (λ v, nil_interface v = false) vs →
  chan (run step (seq (length pre) (length vs)) s) =
    {| store := rest; capacity := capacity (chan s); close := false |} ∧
  tasks (run step (seq (length pre) (length vs)) s) =
    pre ++ ((λ v, RecvRet v true) <$> vs) ++ post.
Proof.
  induction vs as [|v vs IH]; intros pre post rest s Hpre Hpost Hts Hc Hint Hst Hnil.
  - simpl. split; [|done]. destruct (chan s). simpl in *. by subst.
  - apply Forall_cons in Hnil as [Hv Hnil].
    cbn [length seq]. rewrite run_cons.
    assert (tasks s !! length pre = Some RecvCall) as Hg.
    { rewrite Hts. by apply list_lookup_middle. }
    assert (chan (step (length pre) s) =
              {| store := vs ++ rest; capacity := capacity (chan s); close := false |} ∧
            tasks (step (length pre) s) =
              (pre ++ [RecvRet v true]) ++ replicate (length vs) RecvCall ++ post)
      as [Hch1 Hts1].
    { change ((v :: vs) ++ rest) with (v :: (vs ++ rest)) in Hst.
      unfold CondChan.step, Receive, Receive_loop. rewrite Hg, Hc. run_ops.
      rewrite Hst, Hv. run_ops. rewrite Hc.
      rewrite CondChanSpec.int_wrap_incr_decr by done. split; [done|].
      rewrite Hts. cbn [replicate]. rewrite !wake_row; try done.
      - rewrite insert_app_r_alt by lia. rewrite Nat.sub_diag. simpl.
        by rewrite <- app_assoc.
      - constructor; [done|]. by apply Forall_replicate.
      - constructor; [done|]. by apply Forall_replicate. }
    destruct (IH (pre ++ [RecvRet v true]) post rest (step (length pre) s))
      as [Hch' Hts'].
    + apply Forall_app. split; [done|]. by constructor.
    + done.
    + done.
    + by rewrite Hch1.
    + by rewrite Hch1.
    + by rewrite Hch1.
    + done.
    + rewrite length_app in Hch', Hts'. simpl in Hch', Hts'.
      rewrite Nat.add_1_r in Hch', Hts'. rewrite Hch', Hts', Hch1. simpl.
      split; [done|]. by rewrite <- app_assoc.
Qed.

(** X10. Round trip: on a channel with room for them, [n] calls of [Send]
    with messages of which none is the nil interface value, followed by
    [n] calls of [Receive], each run to its end, go through without a
    wait; the receivers get the messages in the order they were sent, and
    the channel is empty with its capacity as before. *)
Theorem round_trip c (vs : list G) :
  Z.of_nat (length vs) ≤ c → is_int c →
  Forall (λ v, nil_interface v = false) vs →
  let n := length vs in
  let s := run step (seq 0 (n + n))
             (spawn ((SendCall <$> vs) ++ replicate n RecvCall) (NewChannel c)) in
  tasks s = replicate n (SendRet None) ++ ((λ v, RecvRet v true) <$> vs) ∧
  chan s = NewChannel c.
Proof.
  intros Hroom Hint Hnil n s. unfold s. rewrite seq_app, run_app. simpl.
  set (s0 := spawn _ _).
  destruct (sends_fill vs [] (replicate n RecvCall) s0) as [Hch1 Hts1].
  - done.
  - by apply Forall_replicate.
  - done.
  - done.
  - simpl. unfold Len. simpl. lia.
  - simpl in Hch1, Hts1. fold n in Hch1, Hts1.
    destruct (receives_drain vs (replicate n (SendRet None)) [] []
                (run step (seq 0 n) s0)) as [Hch2 Hts2].
    + by apply Forall_replicate.
    + done.
    + rewrite Hts1. by rewrite app_nil_r.
    + by rewrite Hch1.
    + by rewrite Hch1.
    + rewrite Hch1. simpl. by rewrite app_nil_r.
    + done.
    + rewrite length_replicate in Hch2, Hts2. fold n in Hch2, Hts2.
      rewrite Hch2, Hts2, Hch1. simpl. by rewrite app_nil_r.
Qed.

End Facts.

(** A channel of capacity 2: two [Send] calls, a [Receive], a [Close]. *)
Lemma received_in_push_order_witness :
  let s := run (step 0) [0; 1; 2; 3]%nat
             (spawn [SendCall 5; SendCall 6; RecvCall; CloseCall] (NewChannel 2)) in
  removed (log s) ++ store (chan s) = pushed (log s) ∧
  (∀ g item, tasks s !! g = Some (RecvRet item true) → (g, EvRemove item) ∈ log s) ∧
  (∀ g m, (g, EvPushBack m) ∈ log s →
     [SendCall 5; SendCall 6; RecvCall; CloseCall] !! g = Some (SendCall m)).
Proof.
  apply (received_in_push_order 0 2 [SendCall 5; SendCall 6; RecvCall; CloseCall]
           [0; 1; 2; 3]%nat).
  by repeat constructor.
Defined.

Lemma store_within_capacity_witness :
  let s := run (step 0) [0; 1; 2]%nat
             (spawn [SendCall 5; SendCall 6; RecvCall] (NewChannel 1)) in
  capacity (chan s) = 1 + Z.of_nat (widening (tasks s)) ∧
  0 ≤ Len (chan s) ≤ capacity (chan s) ∧
  (widening (tasks s) = 0%nat →
     capacity (chan s) = 1 ∧
     within_capacity {| store := store (chan s); capacity := 1; close := close (chan s) |}).
Proof.
  apply (store_within_capacity 0 1 [SendCall 5; SendCall 6; RecvCall] [0; 1; 2]%nat).
  - lia.
  - simpl. lia.
  - by repeat constructor.
Defined.

(** [testChannelClosing]: two messages, [Close], then two [Receive]
    calls. *)
Lemma Close_strands_the_store_witness :
  let s := run (step ""%string) [0; 1; 2]%nat
             (spawn [SendCall "Message 1"%string; SendCall "Message 2"%string;
                     CloseCall; RecvCall; RecvCall] (NewChannel 2)) in
  store (chan s) `prefix_of` store (chan (run (step ""%string) [3; 4]%nat s)) ∧
  ∀ g, tasks s !! g = Some RecvCall →
    tasks (run (step ""%string) [3; 4]%nat s) !! g = Some RecvCall ∨
    tasks (run (step ""%string) [3; 4]%nat s) !! g = Some (RecvRet ""%string false).
Proof.
  apply (Close_strands_the_store ""%string
           (run (step ""%string) [0; 1; 2]%nat
              (spawn [SendCall "Message 1"%string; SendCall "Message 2"%string;
                      CloseCall; RecvCall; RecvCall] (NewChannel 2)))
           [3; 4]%nat).
  - reflexivity.
  - by repeat constructor.
Defined.

(** A [Receive] that waits on an empty channel, then [Close]. *)
Lemma waiting_Receive_hangs_after_Close_witness :
  let s := run (step 0) [0; 1]%nat (spawn [RecvCall; CloseCall] (NewChannel (G := Z) 1)) in
  store (chan (run (step 0) [0; 0; 1]%nat s)) = [] ∧
  ∀ g, tasks s !! g = Some RecvWait ∨ tasks s !! g = Some RecvWake →
    tasks (run (step 0) [0; 0; 1]%nat s) !! g = Some RecvWait ∨
    tasks (run (step 0) [0; 0; 1]%nat s) !! g = Some RecvWake.
Proof.
  apply (waiting_Receive_hangs_after_Close 0
           (run (step 0) [0; 1]%nat (spawn [RecvCall; CloseCall] (NewChannel 1)))
           [0; 0; 1]%nat).
  - reflexivity.
  - reflexivity.
  - by repeat constructor.
Defined.

(** [testBufferedChannel]: capacity 3, the messages 1, 2, 3. *)
Lemma round_trip_witness :
  let s := run (step 0) (seq 0 (3 + 3))
             (spawn ((SendCall <$> [1; 2; 3]) ++ replicate 3 RecvCall) (NewChannel 3)) in
  tasks s = replicate 3 (SendRet None) ++ ((λ v, RecvRet v true) <$> [1; 2; 3]) ∧
  chan s = NewChannel 3.
Proof.
  apply (round_trip 0 3 [1; 2; 3]).
  - simpl. lia.
  - unfold is_int. lia.
  - by repeat constructor.
Defined.

(** The hand-off with the sender first, twice. *)
Lemma hand_off_any_order_witness :
  let s := run (step 0) ([1; 1]%nat ++ [0; 1; 0]%nat) (hand_off 7) in
  tasks s = [RecvRet 7 true; SendRet None] ∧ chan s = NewChannel 0.
Proof. apply (hand_off_any_order 0 7 [1; 1]%nat). reflexivity. Defined.

End CondChanFacts.

(** ** The publisher *)

Module PubSubSpec.
Import PubSub.

Implicit Types (p : Publisher) (g : nat) (sch : list nat) (t : task)
  (topic message : string) (l : list nat) (cs : list mailbox).

Ltac unfold_step :=
  unfold PubSub.step, exclusive, shared, CreateTopic, Subscribe, Publish,
    Publish_range, CloseTopic, CloseSubscriber, Recv in *.

Ltac reduce_fields :=
  cbn [subscribers rlocked wwait chans tasks sent set_task set_subscribers set_chans
       set_rlocked set_wwait] in *.

(** *** What a step does to the goroutines *)

(** A step rewrites at most the entry of the goroutine that moved, and
    never into a call. *)
Lemma step_tasks g p :
  tasks (step g p) = tasks p ∨
  ∃ t, tasks (step g p) = <[g := t]> (tasks p) ∧ is_call t = false.
Proof.
  unfold_step. repeat case_match; reduce_fields; eauto.
Qed.

Lemma step_tasks_other g h p : g ≠ h → tasks (step g p) !! h = tasks p !! h.
Proof.
  intros Hne. destruct (step_tasks g p) as [->|(t & -> & _)]; [done|].
  by rewrite list_lookup_insert_ne.
Qed.

Lemma step_keeps_call g h p t :
  tasks (step g p) !! h = Some t → is_call t = true → tasks p !! h = Some t.
Proof.
  intros Ht Hcall. destruct (step_tasks g p) as [Heq|(t' & Heq & Hncall)];
    rewrite Heq in Ht; [done|].
  destruct (decide (g = h)) as [->|Hne].
  - destruct (decide (h < length (tasks p))%nat).
    + rewrite list_lookup_insert_eq in Ht by done. congruence.
    + by rewrite list_insert_ge in Ht by lia.
  - by rewrite list_lookup_insert_ne in Ht.
Qed.

(** *** Closing channels *)

Lemma close_chan_Some c cs cs' :
  close_chan c cs = Some cs' →
  ∃ mb, cs !! c = Some mb ∧ closed mb = false ∧
        cs' = <[c := {| buf := buf mb; cap := cap mb; closed := true |}]> cs.
Proof.
  unfold close_chan. intros H. destruct (cs !! c) as [mb|]; [|done].
  destruct (closed mb) eqn:Hcl; [done|]. injection H as <-. eauto.
Qed.

Lemma close_chan_open c cs mb :
  cs !! c = Some mb → closed mb = false →
  close_chan c cs = Some (<[c := {| buf := buf mb; cap := cap mb; closed := true |}]> cs).
Proof. intros Hc Hcl. unfold close_chan. by rewrite Hc, Hcl. Qed.

(** A range of [close] calls that does not panic closes exactly the
    channels of the list, which were open and pairwise distinct, and keeps
    what they hold. *)
Lemma close_all_Some l : ∀ cs cs',
  close_all l cs = Some cs' →
  NoDup l ∧
  (∀ c, c ∈ l → ∃ mb, cs !! c = Some mb ∧ closed mb = false ∧
      cs' !! c = Some {| buf := buf mb; cap := cap mb; closed := true |}) ∧
  (∀ c, c ∉ l → cs' !! c = cs !! c).
Proof.
  induction l as [|c l IH]; intros cs cs' H; simpl in H.
  - injection H as <-. split_and!; [constructor| |done]. intros c Hc. by apply elem_of_nil in Hc.
  - destruct (close_chan c cs) as [cs1|] eqn:Hc1; [|done].
    apply close_chan_Some in Hc1 as (mb & Hmb & Hcl & ->).
    destruct (IH _ _ H) as (Hnd & Hin & Hout).
    assert (c ∉ l) as Hnotin.
    { intros Hc. destruct (Hin c Hc) as (mb' & Hmb' & Hcl' & _).
      rewrite list_lookup_insert_eq in Hmb' by (by eapply lookup_lt_Some).
      injection Hmb' as <-. done. }
    split_and!.
    + by constructor.
    + intros c' [->|Hc']%elem_of_cons.
      * exists mb. split_and!; [done..|]. rewrite Hout by done.
        apply list_lookup_insert_eq. by eapply lookup_lt_Some.
      * destruct (Hin c' Hc') as (mb' & Hmb' & Hcl' & Hcs').
        assert (c ≠ c') by (intros ->; done).
        rewrite list_lookup_insert_ne in Hmb' by done. eauto.
    + intros c' Hc'. apply not_elem_of_cons in Hc' as [Hne Hc'].
      rewrite Hout by done. by rewrite list_lookup_insert_ne.
Qed.

Lemma close_all_open l : ∀ cs,
  NoDup l → (∀ c, c ∈ l → ∃ mb, cs !! c = Some mb ∧ closed mb = false) →
  is_Some (close_all l cs).
Proof.
  induction l as [|c l IH]; intros cs Hnd Hopen; simpl; [done|].
  apply NoDup_cons in Hnd as [Hnotin Hnd].
  destruct (Hopen c) as (mb & Hmb & Hcl); [by left|].
  rewrite (close_chan_open c cs mb Hmb Hcl). apply IH; [done|].
  intros c' Hc'. destruct (Hopen c') as (mb' & Hmb' & Hcl'); [by right|].
  exists mb'. split; [|done].
  rewrite list_lookup_insert_ne; [done|]. intros ->. done.
Qed.

(** *** Leaving a subscriber list *)

Lemma removed_at_index l i c c0 :
  l !! i = Some c0 → c ∈ l → c ∉ remove_at i l → c = c0.
Proof.
  intros Hi Hin Hout. unfold remove_at in Hout.
  rewrite <- (take_drop_middle l i c0 Hi) in Hin.
  apply elem_of_app in Hin as [Hin|[->|Hin]%elem_of_cons]; [|done|];
    destruct Hout; apply elem_of_app; auto.
Qed.

(** C2, as amended. A step that takes a channel out of a subscriber list
    closes that channel, which was open, unless the step is a [CreateTopic]
    of a name that has subscribers: that one is excluded here. *)
Theorem removed_is_closed p g topic c :
  (∀ topic' l, tasks p !! g = Some (CreateTopicCall topic') →
               subscribers p !! topic' = Some l → l = []) →
  subscribed p topic c → ¬ subscribed (step g p) topic c →
  is_open p c ∧ is_closed (step g p) c.
Proof.
  intros Hcreate (l & Hl & Hc) Hnot. unfold subscribed, PubSub.step in *.
  destruct (tasks p !! g) as [t|] eqn:Hg; [|by destruct Hnot; exists l].
  destruct t; try (by destruct Hnot; exists l).
  - (* CreateTopic *)
    unfold exclusive, CreateTopic in *.
    destruct (rlocked p); [|by destruct Hnot; exists l].
    destruct (decide (topic0 = topic)) as [->|Hne].
    + rewrite (Hcreate topic l eq_refl Hl) in Hc. by apply elem_of_nil in Hc.
    + destruct Hnot. exists l. reduce_fields. by rewrite lookup_insert_ne.
  - (* Subscribe *)
    unfold exclusive, Subscribe in *.
    destruct (rlocked p); [|by destruct Hnot; exists l].
    destruct (subscribers p !! topic0) as [l0|] eqn:H0;
      [|by destruct Hnot; exists l].
    destruct Hnot. reduce_fields.
    destruct (decide (topic0 = topic)) as [->|Hne].
    + rewrite lookup_insert_eq. eexists; split; [done|].
      apply elem_of_app. left. congruence.
    + exists l. by rewrite lookup_insert_ne.
  - (* Publish *)
    unfold shared, Publish in *. destruct (wwait p); [by destruct Hnot; exists l|].
    destruct (subscribers p !! topic0); by destruct Hnot; exists l.
  - (* the range loop of Publish *)
    unfold Publish_range in *. repeat case_match; by destruct Hnot; exists l.
  - (* CloseTopic *)
    unfold exclusive, CloseTopic in *.
    destruct (rlocked p); [|by destruct Hnot; exists l].
    destruct (subscribers p !! topic0) as [l0|] eqn:H0;
      [|by destruct Hnot; exists l].
    destruct (close_all l0 (chans p)) as [cs|] eqn:Hca;
      [|by destruct Hnot; exists l].
    destruct (decide (topic0 = topic)) as [->|Hne].
    + assert (l0 = l) as -> by congruence.
      apply close_all_Some in Hca as (_ & Hin & _).
      destruct (Hin c Hc) as (mb & Hmb & Hcl & Hcs).
      split; [by exists mb|]. eexists. by split; [exact Hcs|].
    + destruct Hnot. exists l. reduce_fields. by rewrite lookup_delete_ne.
  - (* CloseSubscriber *)
    unfold exclusive, CloseSubscriber in *.
    destruct (rlocked p); [|by destruct Hnot; exists l].
    destruct (subscribers p !! topic0) as [l0|] eqn:H0;
      [|by destruct Hnot; exists l].
    destruct (list_find _ l0) as [[i c0]|] eqn:Hf; [|by destruct Hnot; exists l].
    destruct (close_chan c0 (chans p)) as [cs|] eqn:Hcc;
      [|by destruct Hnot; exists l].
    destruct (decide (topic0 = topic)) as [->|Hne].
    + assert (l0 = l) as -> by congruence.
      apply list_find_Some in Hf as (Hi & _ & _).
      assert (c = c0) as ->.
      { apply (removed_at_index l i c c0 Hi Hc). intros Hin. destruct Hnot.
        exists (remove_at i l). reduce_fields. by rewrite lookup_insert_eq. }
      apply close_chan_Some in Hcc as (mb & Hmb & Hcl & ->).
      split; [by exists mb|]. eexists. reduce_fields.
      split; [apply list_lookup_insert_eq; by eapply lookup_lt_Some|done].
    + destruct Hnot. exists l. reduce_fields. by rewrite lookup_insert_ne.
  - (* a subscriber's receive *)
    unfold Recv in *. repeat case_match; by destruct Hnot; exists l.
Qed.

(** C2 as stated fails for [CreateTopic]: creating a topic again drops its
    subscriber list and leaves the mailbox in it open. *)
Lemma removal_closes_counterexample :
  ¬ (∀ p g topic c,
       reachable p → subscribed p topic c → ¬ subscribed (step g p) topic c →
       is_closed (step g p) c).
Proof.
  intros H.
  destruct (H subscribed_once 2%nat "news"%string 0%nat) as (mb & Hmb & Hcl).
  - exists created_twice_tasks, [0; 1]%nat. split; [|done]. by repeat constructor.
  - exists [0%nat]. split; [done|]. by apply list_elem_of_singleton.
  - intros (l & Hl & Hc). vm_compute in Hl. injection Hl as <-.
    by apply elem_of_nil in Hc.
  - vm_compute in Hmb. injection Hmb as <-. done.
Qed.

(** *** The registry invariant *)

Lemma ranging_insert (ts : list task) g t t' :
  ts !! g = Some t →
  (ranging (<[g := t']> ts) + Nat.b2n (is_range t) =
   ranging ts + Nat.b2n (is_range t'))%nat.
Proof. apply (count_insert is_range). Qed.

Lemma ranging_zero (ts : list task) g rest message :
  ranging ts = 0%nat → ts !! g ≠ Some (PublishRange rest message).
Proof.
  intros Hz Hg. pose proof (ranging_insert ts g _ CreateTopicRet Hg) as H.
  simpl in H. lia.
Qed.

Lemma open_insert cs c mb mb' c' :
  cs !! c = Some mb → closed mb' = closed mb →
  (∃ m, cs !! c' = Some m ∧ closed m = false) →
  ∃ m, <[c := mb']> cs !! c' = Some m ∧ closed m = false.
Proof.
  intros Hc Hcl (m & Hm & Hop). destruct (decide (c = c')) as [->|Hne].
  - exists mb'. rewrite list_lookup_insert_eq by (by eapply lookup_lt_Some).
    split; [done|]. congruence.
  - exists m. by rewrite list_lookup_insert_ne.
Qed.

Lemma open_app cs mb c :
  (∃ m, cs !! c = Some m ∧ closed m = false) →
  ∃ m, (cs ++ [mb]) !! c = Some m ∧ closed m = false.
Proof. intros (m & Hm & Hop). exists m. split; [|done]. by apply lookup_app_l_Some. Qed.

Lemma remove_at_NoDup l i c0 :
  l !! i = Some c0 → NoDup l →
  NoDup (remove_at i l) ∧ (c0 ∉ remove_at i l) ∧ (∀ c, c ∈ remove_at i l → c ∈ l).
Proof.
  intros Hi Hnd. unfold remove_at.
  rewrite <- (take_drop_middle l i c0 Hi) in Hnd.
  apply NoDup_app in Hnd as (Hnd1 & Hdisj & Hnd2).
  apply NoDup_cons in Hnd2 as [Hnotin Hnd2].
  split_and!.
  - apply NoDup_app. split_and!; [done| |done].
    intros c Hc1 Hc2. apply (Hdisj c Hc1). by right.
  - intros [Hc|Hc]%elem_of_app; [|done]. apply (Hdisj c0 Hc). by left.
  - intros c Hc. rewrite <- (take_drop_middle l i c0 Hi).
    apply elem_of_app in Hc as [Hc|Hc]; apply elem_of_app; [by left|].
    right. by right.
Qed.

(** What an operation under the write lock leaves of the two conditions on
    the goroutines: no [Publish] is inside its loop. *)
Lemma exclusive_tasks p p' g t t' :
  wf p → rlocked p = 0%nat → tasks p !! g = Some t →
  tasks p' = <[g := t']> (tasks p) → is_range t' = false → rlocked p' = 0%nat →
  ranges_open p' ∧ rlocked p' = ranging (tasks p').
Proof.
  intros (_ & _ & _ & Hcount) Hz Hg Hts Ht' Hz'. rewrite Hz in Hcount.
  assert (is_range t = false) as Ht.
  { destruct t; try done. exfalso. by eapply ranging_zero. }
  assert (ranging (tasks p') = 0%nat) as Hr.
  { pose proof (ranging_insert (tasks p) g t t' Hg) as H.
    rewrite Ht, Ht' in H. rewrite Hts. lia. }
  split; [|lia].
  intros h rest message Hh. by destruct (ranging_zero (tasks p') h rest message).
Qed.

Lemma wf_CreateTopic g topic p t :
  wf p → rlocked p = 0%nat → tasks p !! g = Some t → wf (CreateTopic g topic p).
Proof.
  intros Hwf Hz Hg.
  destruct (exclusive_tasks p (CreateTopic g topic p) g t CreateTopicRet) as [Hro Hcnt];
    try done.
  destruct Hwf as (Hlo & Hld & _ & _). split_and!; try done.
  - intros topic' l. unfold CreateTopic, is_open. reduce_fields.
    destruct (decide (topic = topic')) as [->|Hne].
    + rewrite lookup_insert_eq. intros [= <-]. split; [constructor|].
      intros c Hc. by apply elem_of_nil in Hc.
    + rewrite lookup_insert_ne by done. apply Hlo.
  - intros topic1 topic2 l1 l2 c Hne. unfold CreateTopic. reduce_fields.
    destruct (decide (topic = topic1)) as [->|Hne1].
    + rewrite lookup_insert_eq. intros [= <-] _ Hc. by apply elem_of_nil in Hc.
    + rewrite lookup_insert_ne by done.
      destruct (decide (topic = topic2)) as [->|Hne2].
      * rewrite lookup_insert_eq. intros _ [= <-] _. apply not_elem_of_nil.
      * rewrite lookup_insert_ne by done. by apply Hld.
Qed.

Lemma listed_in_heap p topic l c :
  wf p → subscribers p !! topic = Some l → c ∈ l → (c < length (chans p))%nat.
Proof.
  intros (Hlo & _) Hl Hc. destruct (Hlo topic l Hl) as [_ Hop].
  destruct (Hop c Hc) as (mb & Hmb & _). by eapply lookup_lt_Some.
Qed.

Lemma wf_Subscribe g topic p t :
  wf p → rlocked p = 0%nat → tasks p !! g = Some t → wf (Subscribe g topic p).
Proof.
  intros Hwf Hz Hg.
  assert (ranges_open (Subscribe g topic p) ∧
          rlocked (Subscribe g topic p) = ranging (tasks (Subscribe g topic p)))
    as [Hro Hcnt].
  { unfold Subscribe. destruct (subscribers p !! topic);
      eapply (exclusive_tasks p _ g t); done. }
  pose proof (listed_in_heap p) as Hheap. pose proof Hwf as Hwf'.
  destruct Hwf as (Hlo & Hld & _ & _). split_and!; try done.
  - intros topic' l'. unfold Subscribe, is_open.
    destruct (subscribers p !! topic) as [l|] eqn:Hl; reduce_fields.
    + destruct (decide (topic = topic')) as [->|Hne].
      * rewrite lookup_insert_eq. intros [= <-].
        destruct (Hlo topic' l Hl) as [Hnd Hop]. split.
        -- apply NoDup_app. split_and!; [done| |apply NoDup_singleton].
           intros c Hc ->%list_elem_of_singleton.
           specialize (Hheap topic' l _ Hwf' Hl Hc). lia.
        -- intros c [Hc| ->%list_elem_of_singleton]%elem_of_app.
           ++ apply open_app. by apply Hop.
           ++ eexists. split; [by apply list_lookup_middle|done].
      * rewrite lookup_insert_ne by done. intros Hl'.
        destruct (Hlo topic' l' Hl') as [Hnd Hop]. split; [done|].
        intros c Hc. apply open_app. by apply Hop.
    + intros Hl'. destruct (Hlo topic' l' Hl') as [Hnd Hop]. split; [done|].
      intros c Hc. apply open_app. by apply Hop.
  - intros topic1 topic2 l1 l2 c Hne. unfold Subscribe.
    destruct (subscribers p !! topic) as [l|] eqn:Hl; reduce_fields; [|by apply Hld].
    destruct (decide (topic = topic1)) as [->|Hne1].
    + rewrite lookup_insert_eq, lookup_insert_ne by done.
      intros [= <-] Hl2 [Hc| ->%list_elem_of_singleton]%elem_of_app.
      * by eapply Hld.
      * intros Hin. specialize (Hheap topic2 l2 _ Hwf' Hl2 Hin). lia.
    + rewrite lookup_insert_ne by done.
      destruct (decide (topic = topic2)) as [->|Hne2].
      * rewrite lookup_insert_eq. intros Hl1 [= <-] Hc.
        intros [Hin| ->%list_elem_of_singleton]%elem_of_app.
        -- by eapply (Hld topic1 topic2).
        -- specialize (Hheap topic1 l1 _ Hwf' Hl1 Hc). lia.
      * rewrite lookup_insert_ne by done. by apply Hld.
Qed.

Lemma wf_CloseTopic g topic p t :
  wf p → rlocked p = 0%nat → tasks p !! g = Some t → wf (CloseTopic g topic p).
Proof.
  intros Hwf Hz Hg.
  assert (ranges_open (CloseTopic g topic p) ∧
          rlocked (CloseTopic g topic p) = ranging (tasks (CloseTopic g topic p)))
    as [Hro Hcnt].
  { unfold CloseTopic. destruct (subscribers p !! topic); [|by eapply (exclusive_tasks p _ g t)].
    destruct (close_all _ _); by eapply (exclusive_tasks p _ g t). }
  destruct Hwf as (Hlo & Hld & _ & _). split_and!; try done.
  - intros topic' l'. unfold CloseTopic, is_open.
    destruct (subscribers p !! topic) as [l|] eqn:Hl; reduce_fields; [|apply Hlo].
    destruct (close_all l (chans p)) as [cs|] eqn:Hca; reduce_fields; [|apply Hlo].
    intros [Hne Hl']%lookup_delete_Some.
    destruct (Hlo topic' l' Hl') as [Hnd Hop]. split; [done|].
    intros c Hc. apply close_all_Some in Hca as (_ & _ & Hout).
    rewrite Hout; [by apply Hop|]. by eapply (Hld topic' topic).
  - intros topic1 topic2 l1 l2 c Hne. unfold CloseTopic.
    destruct (subscribers p !! topic) as [l|] eqn:Hl; reduce_fields; [|by apply Hld].
    destruct (close_all l (chans p)) as [cs|] eqn:Hca; reduce_fields; [|by apply Hld].
    intros [_ Hl1]%lookup_delete_Some [_ Hl2]%lookup_delete_Some. by eapply Hld.
Qed.

Lemma wf_CloseSubscriber g topic ch p t :
  wf p → rlocked p = 0%nat → tasks p !! g = Some t →
  wf (CloseSubscriber g topic ch p).
Proof.
  intros Hwf Hz Hg.
  assert (ranges_open (CloseSubscriber g topic ch p) ∧
          rlocked (CloseSubscriber g topic ch p) =
            ranging (tasks (CloseSubscriber g topic ch p)))
    as [Hro Hcnt].
  { unfold CloseSubscriber.
    destruct (subscribers p !! topic); [|by eapply (exclusive_tasks p _ g t)].
    destruct (list_find _ _) as [[i c0]|]; [|by eapply (exclusive_tasks p _ g t)].
    destruct (close_chan _ _); by eapply (exclusive_tasks p _ g t). }
  destruct Hwf as (Hlo & Hld & _ & _). split_and!; try done.
  - intros topic' l'. unfold CloseSubscriber, is_open.
    destruct (subscribers p !! topic) as [l|] eqn:Hl; reduce_fields; [|apply Hlo].
    destruct (list_find _ l) as [[i c0]|] eqn:Hf; reduce_fields; [|apply Hlo].
    destruct (close_chan c0 (chans p)) as [cs|] eqn:Hcc; reduce_fields; [|apply Hlo].
    apply list_find_Some in Hf as (Hi & _ & _).
    apply close_chan_Some in Hcc as (mb & Hmb & Hcl & ->).
    destruct (Hlo topic l Hl) as [Hnd Hop].
    destruct (remove_at_NoDup l i c0 Hi Hnd) as (Hnd' & Hnotin & Hsub).
    destruct (decide (topic = topic')) as [->|Hne].
    + rewrite lookup_insert_eq. intros [= <-]. split; [done|].
      intros c Hc. destruct (Hop c (Hsub c Hc)) as (m & Hm & Hopen).
      exists m. split; [|done]. rewrite list_lookup_insert_ne; [done|].
      intros ->. done.
    + rewrite lookup_insert_ne by done. intros Hl'.
      destruct (Hlo topic' l' Hl') as [Hnd2 Hop2]. split; [done|].
      intros c Hc. destruct (Hop2 c Hc) as (m & Hm & Hopen).
      exists m. split; [|done]. rewrite list_lookup_insert_ne; [done|].
      intros ->. apply (Hld topic topic' l l' c Hne Hl Hl'); [|done].
      by eapply list_elem_of_lookup_2.
  - intros topic1 topic2 l1 l2 c Hne. unfold CloseSubscriber.
    destruct (subscribers p !! topic) as [l|] eqn:Hl; reduce_fields; [|by apply Hld].
    destruct (list_find _ l) as [[i c0]|] eqn:Hf; reduce_fields; [|by apply Hld].
    destruct (close_chan c0 (chans p)) as [cs|] eqn:Hcc; reduce_fields; [|by apply Hld].
    apply list_find_Some in Hf as (Hi & _ & _).
    destruct (Hlo topic l Hl) as [Hnd Hop].
    destruct (remove_at_NoDup l i c0 Hi Hnd) as (Hnd' & Hnotin & Hsub).
    destruct (decide (topic = topic1)) as [->|Hne1].
    + rewrite lookup_insert_eq, lookup_insert_ne by done.
      intros [= <-] Hl2 Hc. eapply Hld; [done..|]. by apply Hsub.
    + rewrite lookup_insert_ne by done.
      destruct (decide (topic = topic2)) as [->|Hne2].
      * rewrite lookup_insert_eq. intros Hl1 [= <-] Hc Hin.
        by apply (Hld topic1 topic2 l1 l c Hne Hl1 Hl Hc), Hsub.
      * rewrite lookup_insert_ne by done. by apply Hld.
Qed.

Lemma wf_Publish g topic message p :
  wf p → tasks p !! g = Some (PublishCall topic message) →
  wf (Publish g topic message p).
Proof.
  intros (Hlo & Hld & Hro & Hcnt) Hg. unfold Publish.
  pose proof (ranging_insert (tasks p) g _ (PublishRet (Some "topic not found"%string)) Hg)
    as Hn.
  destruct (subscribers p !! topic) as [l|] eqn:Hl.
  - pose proof (ranging_insert (tasks p) g _ (PublishRange l message) Hg) as Hr.
    split_and!; try done; reduce_fields.
    + intros h rest m Hh c Hc. unfold is_open. reduce_fields.
      destruct (decide (g = h)) as [->|Hne].
      * rewrite list_lookup_insert_eq in Hh by (by eapply lookup_lt_Some).
        injection Hh as <- <-. by apply (Hlo topic l Hl).
      * rewrite list_lookup_insert_ne in Hh by done. by eapply Hro.
    + simpl in Hr. lia.
  - split_and!; try done; reduce_fields.
    + intros h rest m Hh c Hc. unfold is_open. reduce_fields.
      destruct (decide (g = h)) as [->|Hne].
      * by rewrite list_lookup_insert_eq in Hh by (by eapply lookup_lt_Some).
      * rewrite list_lookup_insert_ne in Hh by done. by eapply Hro.
    + simpl in Hn. lia.
Qed.

Lemma wf_chans_insert p c mb mb' (ts : list task) (n : nat) (w : bool) snt :
  wf p → chans p !! c = Some mb → closed mb' = closed mb →
  (∀ h rest m, ts !! h = Some (PublishRange rest m) →
     ∃ h' rest' m', tasks p !! h' = Some (PublishRange rest' m') ∧ rest ⊆ rest') →
  n = ranging ts →
  wf {| subscribers := subscribers p; rlocked := n; wwait := w;
        chans := <[c := mb']> (chans p); tasks := ts; sent := snt |}.
Proof.
  intros (Hlo & Hld & Hro & _) Hc Hcl Hts Hn. split_and!; try done.
  - intros topic l Hl. destruct (Hlo topic l Hl) as [Hnd Hop]. split; [done|].
    intros c' Hc'. unfold is_open. reduce_fields. eapply open_insert; [done..|].
    by apply Hop.
  - intros h rest m Hh c' Hc'. unfold is_open. reduce_fields.
    destruct (Hts h rest m Hh) as (h' & rest' & m' & Hh' & Hsub).
    eapply open_insert; [done..|]. eapply Hro; [done|]. by apply Hsub.
Qed.

Lemma wf_Publish_range g rest message p :
  wf p → tasks p !! g = Some (PublishRange rest message) →
  wf (Publish_range g rest message p).
Proof.
  intros Hwf Hg. pose proof Hwf as (Hlo & Hld & Hro & Hcnt). unfold Publish_range.
  assert (∀ t', is_range t' = false →
            wf (set_task g t' (set_rlocked (pred (rlocked p)) p))) as Hleave.
  { intros t' Ht'. pose proof (ranging_insert (tasks p) g _ t' Hg) as Hn.
    rewrite Ht' in Hn. simpl in Hn.
    split_and!; try done; reduce_fields; [|lia].
    intros h rest' m Hh c Hc. unfold is_open. reduce_fields.
    destruct (decide (g = h)) as [->|Hne].
    - rewrite list_lookup_insert_eq in Hh by (by eapply lookup_lt_Some).
      by injection Hh as ->.
    - rewrite list_lookup_insert_ne in Hh by done. by eapply Hro. }
  destruct rest as [|ch rest]; [by apply Hleave|].
  destruct (chans p !! ch) as [mb|] eqn:Hch; [|done].
  destruct (closed mb) eqn:Hcl; [by apply Hleave|].
  case_decide; [|done].
  eapply wf_chans_insert; [done|done|simpl; congruence| |].
  - intros h rest' m Hh. destruct (decide (g = h)) as [->|Hne].
    + rewrite list_lookup_insert_eq in Hh by (by eapply lookup_lt_Some).
      injection Hh as <- <-. exists h, (ch :: rest), message. split; [done|].
      set_solver.
    + rewrite list_lookup_insert_ne in Hh by done. by exists h, rest', m.
  - pose proof (ranging_insert (tasks p) g _ (PublishRange rest message) Hg) as Hn.
    simpl in Hn. lia.
Qed.

Lemma wf_Recv g ch p t :
  wf p → tasks p !! g = Some t → is_range t = false → wf (Recv g ch p).
Proof.
  intros Hwf Hg Ht. pose proof Hwf as (Hlo & Hld & Hro & Hcnt). unfold Recv.
  assert (∀ t', is_range t' = false →
            ∀ h rest m, <[g := t']> (tasks p) !! h = Some (PublishRange rest m) →
            ∃ h' rest' m', tasks p !! h' = Some (PublishRange rest' m') ∧ rest ⊆ rest')
    as Hts.
  { intros t' Ht' h rest m Hh. destruct (decide (g = h)) as [->|Hne].
    - rewrite list_lookup_insert_eq in Hh by (by eapply lookup_lt_Some).
      by injection Hh as ->.
    - rewrite list_lookup_insert_ne in Hh by done. by exists h, rest, m. }
  assert (∀ t', is_range t' = false → rlocked p = ranging (<[g := t']> (tasks p)))
    as Hn.
  { intros t' Ht'. pose proof (ranging_insert (tasks p) g t t' Hg) as Hn.
    rewrite Ht, Ht' in Hn. lia. }
  destruct (chans p !! ch) as [mb|] eqn:Hch; [|done].
  destruct (buf mb) as [|msg rest].
  - destruct (closed mb); [|done].
    split_and!; try done; reduce_fields; [|by apply Hn].
    intros h rest m Hh c Hc. unfold is_open. reduce_fields.
    destruct (Hts (RecvRet ""%string false) eq_refl h rest m Hh)
      as (h' & rest' & m' & Hh' & Hsub).
    eapply Hro; [done|]. by apply Hsub.
  - unfold set_task, set_chans. reduce_fields.
    eapply wf_chans_insert; [done..|by apply Hts|by apply Hn].
Qed.

(** The invariant does not depend on whether a writer waits. *)
Lemma wf_wwait b p : wf p → wf (set_wwait b p).
Proof. intros Hwf. exact Hwf. Qed.

(** Every step keeps the invariant. *)
Lemma wf_step g p : wf p → wf (step g p).
Proof.
  intros Hwf. unfold PubSub.step, exclusive, shared.
  destruct (tasks p !! g) as [t|] eqn:Hg; [|done].
  destruct t; try done.
  - destruct (rlocked p) eqn:Hz; [|done]. by eapply wf_wwait, wf_CreateTopic.
  - destruct (rlocked p) eqn:Hz; [|done]. by eapply wf_wwait, wf_Subscribe.
  - destruct (wwait p); [done|]. by apply wf_Publish.
  - by apply wf_Publish_range.
  - destruct (rlocked p) eqn:Hz; [|done]. by eapply wf_wwait, wf_CloseTopic.
  - destruct (rlocked p) eqn:Hz; [|done]. by eapply wf_wwait, wf_CloseSubscriber.
  - by eapply wf_Recv.
Qed.

Lemma ranging_calls (ts : list task) :
  Forall (λ t, is_call t = true) ts → ranging ts = 0%nat.
Proof.
  unfold ranging. induction 1 as [|t ts Ht _ IH]; [done|].
  rewrite filter_cons_False; [done|]. by destruct t.
Qed.

Lemma wf_reachable p : reachable p → wf p.
Proof.
  intros (ts & sch & Hts & ->). apply run_invariant; [apply wf_step|].
  split_and!.
  - intros topic l Hl. simpl in Hl. by rewrite lookup_empty in Hl.
  - intros topic1 topic2 l1 l2 c _ Hl. simpl in Hl. by rewrite lookup_empty in Hl.
  - intros g rest m Hg. simpl in Hg.
    rewrite Forall_lookup in Hts. by specialize (Hts g _ Hg).
  - simpl. by rewrite ranging_calls.
Qed.

(** *** Publish *)

Lemma sent_by_app g (l1 l2 : list (nat * nat * string)) :
  sent_by g (l1 ++ l2) = sent_by g l1 ++ sent_by g l2.
Proof. unfold sent_by. by rewrite filter_app, fmap_app. Qed.

(** The log of sends grows at its end, by sends of the goroutine that
    moved. *)
Lemma sent_step h p :
  sent (step h p) = sent p ∨ ∃ c m, sent (step h p) = sent p ++ [(h, c, m)].
Proof. unfold_step. repeat case_match; reduce_fields; eauto. Qed.

Lemma sent_by_other g h p :
  g ≠ h → ∃ evs, sent (step h p) = sent p ++ evs ∧ sent_by g evs = [].
Proof.
  intros Hne. destruct (sent_step h p) as [->|(c & m & ->)].
  - exists []. by rewrite app_nil_r.
  - eexists. split; [done|]. unfold sent_by. by rewrite filter_cons_False.
Qed.

Lemma run_wf sch p : wf p → wf (run step sch p).
Proof. apply run_invariant. intros; by apply wf_step. Qed.

(** The sends of one [Publish], under any schedule: to the channels of the
    subscriber list as it was at the lookup, from its head on, one after
    the other; the call cannot panic, and when it has returned it has sent
    to the whole list. *)
Lemma Publish_trace g topic message l p :
  wf p → wwait p = false → tasks p !! g = Some (PublishCall topic message) →
  subscribers p !! topic = Some l → ∀ sch,
  ∃ new done rest,
    sent (run step (g :: sch) p) = sent p ++ new ∧
    sent_by g new = (λ c, (c, message)) <$> done ∧
    l = done ++ rest ∧
    (tasks (run step (g :: sch) p) !! g = Some (PublishRange rest message) ∨
     (rest = [] ∧ tasks (run step (g :: sch) p) !! g = Some (PublishRet None))).
Proof.
  intros Hwf Hw Hg Hl sch. induction sch as [|h sch IH] using rev_ind.
  - rewrite run_cons, run_nil. exists [], [], l. unfold PubSub.step, shared, Publish.
    rewrite Hg, Hw, Hl. reduce_fields. rewrite app_nil_r. split_and!; try done.
    left. apply list_lookup_insert_eq. by eapply lookup_lt_Some.
  - change (g :: sch ++ [h]) with ((g :: sch) ++ [h]). rewrite run_snoc.
    pose proof (run_wf (g :: sch) p Hwf) as Hwf1.
    set (p1 := run step (g :: sch) p) in *.
    destruct IH as (new & dn & rest & Hsent & Hby & Hsplit & Hform).
    destruct (decide (h = g)) as [->|Hne].
    + destruct Hform as [Hr|[-> Hr]].
      * unfold PubSub.step. rewrite Hr. unfold Publish_range.
        destruct rest as [|c rest].
        -- exists new, dn, []. reduce_fields. split_and!; try done.
           right. split; [done|]. apply list_lookup_insert_eq. by eapply lookup_lt_Some.
        -- destruct Hwf1 as (_ & _ & Hro & _).
           destruct (Hro g _ _ Hr c) as (mb & Hmb & Hcl); [by left|].
           rewrite Hmb, Hcl. case_decide.
           ++ exists (new ++ [(g, c, message)]), (dn ++ [c]), rest. reduce_fields.
              split_and!.
              ** by rewrite Hsent, <- app_assoc.
              ** rewrite sent_by_app, Hby, fmap_app. f_equal.
                 unfold sent_by. by rewrite filter_cons_True.
              ** by rewrite Hsplit, <- app_assoc.
              ** left. apply list_lookup_insert_eq. by eapply lookup_lt_Some.
           ++ exists new, dn, (c :: rest). split_and!; auto.
      * exists new, dn, []. unfold PubSub.step. rewrite Hr. split_and!; auto.
    + assert (Hne' : g ≠ h) by done.
      destruct (sent_by_other g h p1 Hne') as (evs & Hevs & Hnone).
      exists (new ++ evs), dn, rest. split_and!; try done.
      * by rewrite Hevs, Hsent, <- app_assoc.
      * by rewrite sent_by_app, Hnone, app_nil_r.
      * by rewrite step_tasks_other.
Qed.

(** With room in every mailbox of the list, [Publish] goes through without
    blocking: each mailbox gets the message at the end of its buffer and
    the call returns. *)
Lemma Publish_range_completes g message rest : ∀ p,
  tasks p !! g = Some (PublishRange rest message) → NoDup rest →
  (∀ c, c ∈ rest → ∃ mb, chans p !! c = Some mb ∧ closed mb = false ∧
                         (length (buf mb) < cap mb)%nat) →
  let p' := run step (repeat g (S (length rest))) p in
  tasks p' !! g = Some (PublishRet None) ∧
  (∀ c, c ∈ rest → ∃ mb, chans p !! c = Some mb ∧
     chans p' !! c = Some {| buf := buf mb ++ [message]; cap := cap mb; closed := false |}) ∧
  (∀ c, c ∉ rest → chans p' !! c = chans p !! c).
Proof.
  induction rest as [|c rest IH]; intros p Hg Hnd Hroom.
  - cbn [length repeat]. rewrite run_cons, run_nil.
    unfold PubSub.step, Publish_range. rewrite Hg. reduce_fields.
    split_and!; [|by intros c Hc%elem_of_nil|done].
    apply list_lookup_insert_eq. by eapply lookup_lt_Some.
  - cbn [length repeat]. rewrite run_cons.
    apply NoDup_cons in Hnd as [Hnotin Hnd].
    destruct (Hroom c) as (mb & Hmb & Hcl & Hlt); [by left|].
    assert (step g p =
      {| subscribers := subscribers p; rlocked := rlocked p; wwait := wwait p;
         chans := <[c := {| buf := buf mb ++ [message]; cap := cap mb;
                             closed := false |}]> (chans p);
         tasks := <[g := PublishRange rest message]> (tasks p);
         sent := sent p ++ [(g, c, message)] |}) as Hstep.
    { unfold PubSub.step, Publish_range. rewrite Hg, Hmb, Hcl. by case_decide. }
    rewrite Hstep. set (p1 := {| subscribers := _ |}).
    destruct (IH p1) as (Hret & Hin & Hout).
    + apply list_lookup_insert_eq. by eapply lookup_lt_Some.
    + done.
    + intros c' Hc'. destruct (Hroom c') as (mb' & Hmb' & Hcl' & Hlt'); [by right|].
      exists mb'. split_and!; try done. subst p1. reduce_fields.
      rewrite list_lookup_insert_ne; [done|]. intros ->. done.
    + split_and!; [done| |].
      * intros c' [->|Hc']%elem_of_cons.
        -- exists mb. split; [done|]. rewrite Hout by done. subst p1. reduce_fields.
           apply list_lookup_insert_eq. by eapply lookup_lt_Some.
        -- destruct (Hin c' Hc') as (mb' & Hmb' & Hp').
           exists mb'. split; [|done]. subst p1. reduce_fields.
           rewrite list_lookup_insert_ne in Hmb'; [done|]. intros ->. done.
      * intros c' Hc'. apply not_elem_of_cons in Hc' as [Hne Hc'].
        rewrite Hout by done. subst p1. reduce_fields.
        by rewrite list_lookup_insert_ne.
Qed.

(** C7. A [Publish] that finds a writer waiting for the lock waits at its
    [RLock]. Once it has the read lock: for a name that is not in the
    registry it returns the error and changes neither a mailbox nor the
    log of sends. For a name that is there, under every schedule, the
    sends of the call go to the channels of the subscriber list in list
    order, and a call that has returned has sent to all of them and
    returned [nil]; with room in every mailbox the call does return, with
    the message at the end of each buffer. *)
Theorem Publish_spec g topic message p sch :
  reachable p → tasks p !! g = Some (PublishCall topic message) →
  (wwait p = true → step g p = p) ∧
  (wwait p = false →
   (subscribers p !! topic = None →
      tasks (step g p) !! g = Some (PublishRet (Some "topic not found"%string)) ∧
      chans (step g p) = chans p ∧ sent (step g p) = sent p ∧
      subscribers (step g p) = subscribers p) ∧
   (∀ l, subscribers p !! topic = Some l →
      (∃ new done rest,
         sent (run step (g :: sch) p) = sent p ++ new ∧
         sent_by g new = (λ c, (c, message)) <$> done ∧
         l = done ++ rest ∧
         (tasks (run step (g :: sch) p) !! g = Some (PublishRange rest message) ∨
          (rest = [] ∧ tasks (run step (g :: sch) p) !! g = Some (PublishRet None)))) ∧
      ((∀ c, c ∈ l → ∃ mb, chans p !! c = Some mb ∧ (length (buf mb) < cap mb)%nat) →
       let p' := run step (repeat g (S (S (length l)))) p in
       tasks p' !! g = Some (PublishRet None) ∧
       (∀ c, c ∈ l → ∃ mb, chans p !! c = Some mb ∧
          chans p' !! c =
            Some {| buf := buf mb ++ [message]; cap := cap mb; closed := false |}) ∧
       (∀ c, c ∉ l → chans p' !! c = chans p !! c)))).
Proof.
  intros Hwf%wf_reachable Hg. split.
  { intros Hw. unfold PubSub.step, shared. by rewrite Hg, Hw. }
  intros Hw. split.
  - intros Hnone. unfold PubSub.step, shared, Publish. rewrite Hg, Hw, Hnone.
    reduce_fields.
    split_and!; try done. apply list_lookup_insert_eq. by eapply lookup_lt_Some.
  - intros l Hl. split; [by eapply Publish_trace|].
    intros Hroom. cbn [repeat]. rewrite run_cons.
    assert (step g p = set_task g (PublishRange l message) (set_rlocked (S (rlocked p)) p))
      as ->.
    { unfold PubSub.step, shared, Publish. by rewrite Hg, Hw, Hl. }
    destruct Hwf as (Hlo & _). destruct (Hlo topic l Hl) as [Hnd Hop].
    apply (Publish_range_completes g message l
             (set_task g (PublishRange l message) (set_rlocked (S (rlocked p)) p))).
    + reduce_fields. apply list_lookup_insert_eq. by eapply lookup_lt_Some.
    + done.
    + intros c Hc. destruct (Hroom c Hc) as (mb & Hmb & Hlt).
      destruct (Hop c Hc) as (mb' & Hmb' & Hcl). exists mb.
      assert (mb' = mb) as -> by congruence. done.
Qed.

(** *** CloseTopic *)

(** A name that is not in the registry stays out of it until it is
    created. *)
Lemma subscribers_none_step topic g p :
  subscribers p !! topic = None →
  tasks p !! g ≠ Some (CreateTopicCall topic) →
  subscribers (step g p) !! topic = None.
Proof.
  intros Hnone Hg. unfold PubSub.step.
  destruct (tasks p !! g) as [t|]; [|done]. destruct t; try done.
  - unfold exclusive, CreateTopic. destruct (rlocked p); [|done]. reduce_fields.
    rewrite lookup_insert_ne; [done|]. congruence.
  - unfold exclusive, Subscribe. destruct (rlocked p); [|done].
    destruct (subscribers p !! topic0) eqn:H0; reduce_fields; [|done].
    rewrite lookup_insert_ne; [done|]. congruence.
  - unfold shared, Publish. destruct (wwait p); [done|].
    by destruct (subscribers p !! topic0).
  - unfold Publish_range. by repeat case_match.
  - unfold exclusive, CloseTopic. destruct (rlocked p); [|done].
    destruct (subscribers p !! topic0) eqn:H0; [|done].
    destruct (close_all _ _); reduce_fields; [|done].
    apply lookup_delete_None. by right.
  - unfold exclusive, CloseSubscriber. destruct (rlocked p); [|done].
    destruct (subscribers p !! topic0) eqn:H0; [|done].
    destruct (list_find _ _) as [[i c0]|]; [|done].
    destruct (close_chan _ _); reduce_fields; [|done].
    rewrite lookup_insert_ne; [done|]. congruence.
  - unfold Recv. by repeat case_match.
Qed.

Lemma subscribers_none_run topic sch : ∀ p,
  subscribers p !! topic = None →
  (∀ h, h ∈ sch → tasks p !! h ≠ Some (CreateTopicCall topic)) →
  subscribers (run step sch p) !! topic = None.
Proof.
  induction sch as [|g sch IH]; intros p Hnone Hsch; [done|].
  rewrite run_cons. apply IH.
  - apply subscribers_none_step; [done|]. apply Hsch. by left.
  - intros h Hh Hcreate. apply (Hsch h); [by right|].
    by eapply step_keeps_call.
Qed.

(** C8, as amended. [CloseTopic] of a name in the registry, once it has
    the write lock, closes every mailbox of the list, keeping what the
    mailbox holds, and takes the name out of the registry. A receive on
    such a mailbox then gives the message still buffered, if there is one,
    and the end of the stream otherwise. As long as the name is not created
    again, a [Publish], [Subscribe] or [CloseTopic] on it that gets its
    lock (the read lock when no writer waits, the write lock when no
    [Publish] holds the read lock) returns the error. *)
Theorem CloseTopic_spec g topic l p sch :
  reachable p → rlocked p = 0%nat →
  tasks p !! g = Some (CloseTopicCall topic) →
  subscribers p !! topic = Some l →
  (∀ h, h ∈ sch → tasks (step g p) !! h ≠ Some (CreateTopicCall topic)) →
  let p' := step g p in
  let q := run step sch p' in
  tasks p' !! g = Some (CloseTopicRet None) ∧
  subscribers p' !! topic = None ∧
  (∀ c, c ∈ l → ∃ mb, chans p !! c = Some mb ∧ closed mb = false ∧
     chans p' !! c = Some {| buf := buf mb; cap := cap mb; closed := true |}) ∧
  (∀ c r, c ∈ l → tasks p' !! r = Some (RecvCall c) →
     ∃ mb, chans p !! c = Some mb ∧
       tasks (step r p') !! r =
         Some (match buf mb with
               | [] => RecvRet ""%string false
               | msg :: _ => RecvRet msg true
               end)) ∧
  subscribers q !! topic = None ∧
  (∀ h m, wwait q = false → tasks q !! h = Some (PublishCall topic m) →
     tasks (step h q) !! h = Some (PublishRet (Some "topic not found"%string))) ∧
  (∀ h, rlocked q = 0%nat → tasks q !! h = Some (SubscribeCall topic) →
     tasks (step h q) !! h = Some (SubscribeRet None (Some "topic not found"%string))) ∧
  (∀ h, rlocked q = 0%nat → tasks q !! h = Some (CloseTopicCall topic) →
     tasks (step h q) !! h = Some (CloseTopicRet (Some "topic not found"%string))).
Proof.
  intros Hwf%wf_reachable Hz Hg Hl Hsch p' q.
  destruct Hwf as (Hlo & _). destruct (Hlo topic l Hl) as [Hnd Hop].
  destruct (close_all_open l (chans p) Hnd Hop) as [cs Hca].
  assert (p' = set_wwait false
                 (set_task g (CloseTopicRet None)
                    (set_subscribers (delete topic (subscribers p)) (set_chans cs p))))
    as Hp'.
  { unfold p', PubSub.step, exclusive, CloseTopic. by rewrite Hg, Hz, Hl, Hca. }
  destruct (close_all_Some l _ _ Hca) as (_ & Hin & _).
  assert (subscribers q !! topic = None) as Hq.
  { apply subscribers_none_run; [|done]. rewrite Hp'. reduce_fields.
    apply lookup_delete_eq. }
  split_and!.
  - rewrite Hp'. reduce_fields. apply list_lookup_insert_eq. by eapply lookup_lt_Some.
  - rewrite Hp'. reduce_fields. apply lookup_delete_eq.
  - intros c Hc. rewrite Hp'. reduce_fields. by apply Hin.
  - intros c r Hc Hr. destruct (Hin c Hc) as (mb & Hmb & Hcl & Hcs).
    exists mb. split; [done|].
    assert (chans p' !! c = Some {| buf := buf mb; cap := cap mb; closed := true |})
      as Hc' by (rewrite Hp'; done).
    unfold PubSub.step, Recv. rewrite Hr, Hc'. simpl.
    destruct (buf mb); reduce_fields;
      apply list_lookup_insert_eq; by eapply lookup_lt_Some.
  - done.
  - intros h m Hw Hh. unfold PubSub.step, shared, Publish. rewrite Hh, Hw, Hq.
    reduce_fields. apply list_lookup_insert_eq. by eapply lookup_lt_Some.
  - intros h Hzq Hh. unfold PubSub.step, exclusive, Subscribe. rewrite Hh, Hzq, Hq.
    reduce_fields. apply list_lookup_insert_eq. by eapply lookup_lt_Some.
  - intros h Hzq Hh. unfold PubSub.step, exclusive, CloseTopic. rewrite Hh, Hzq, Hq.
    reduce_fields. apply list_lookup_insert_eq. by eapply lookup_lt_Some.
Qed.

(** C8 as stated fails in its gloss on closing: a mailbox that holds a
    message when its topic is closed gives that message to the next
    receive, not the end of the stream. *)
Lemma CloseTopic_next_receive_counterexample :
  ¬ (∀ p g topic l c r,
       reachable p → rlocked p = 0%nat →
       tasks p !! g = Some (CloseTopicCall topic) →
       subscribers p !! topic = Some l → c ∈ l →
       tasks (step g p) !! r = Some (RecvCall c) →
       tasks (step r (step g p)) !! r = Some (RecvRet ""%string false)).
Proof.
  intros H.
  specialize (H news_published 3%nat "news"%string [0%nat] 0%nat 4%nat).
  assert (tasks (step 4 (step 3 news_published)) !! 4%nat = Some (RecvRet "hi" true))
    as Hhi by (vm_compute; reflexivity).
  rewrite H in Hhi; try (vm_compute; reflexivity); [discriminate| |].
  - exists news_tasks, [0; 1; 2; 2; 2]%nat. split; [|done]. by repeat constructor.
  - by apply list_elem_of_singleton.
Qed.

Lemma removed_is_closed_witness :
  is_open unsubscribing 0%nat ∧ is_closed (step 2 unsubscribing) 0%nat.
Proof.
  apply (removed_is_closed unsubscribing 2%nat "news"%string 0%nat).
  - intros topic' l Hg. vm_compute in Hg. discriminate.
  - exists [0%nat]. split; [by vm_compute|]. by apply list_elem_of_singleton.
  - intros (l & Hl & Hc). vm_compute in Hl. injection Hl as <-.
    by apply elem_of_nil in Hc.
Defined.

Lemma two_subscribers_reachable : reachable two_subscribers.
Proof.
  eexists _, [0; 1; 2]%nat. split; [|reflexivity]. by repeat constructor.
Defined.

Lemma writer_waiting_reachable : reachable writer_waiting.
Proof.
  exists writer_waiting_tasks, [0; 1; 2; 3; 3; 3; 4; 4; 5]%nat.
  split; [|reflexivity]. by repeat constructor.
Defined.

(** Behind the waiting [Subscribe] a [Publish] does not move. When it
    has the lock at last, the subscriber list is the one the [Subscribe]
    left: its message goes to the new mailbox too. *)
Lemma Publish_behind_writer :
  wwait writer_waiting = true ∧
  subscribers writer_waiting !! "news"%string = Some [0%nat] ∧
  tasks (run step [6; 7; 6; 7]%nat writer_waiting) = tasks writer_waiting ∧
  sent_by 7 (sent (run step [7; 8; 4; 4; 5; 7; 9; 7; 7; 7]%nat writer_waiting))
    = [(0%nat, "third"%string); (1%nat, "third"%string)].
Proof. by vm_compute. Qed.

(** So the subscriber list that counts for a [Publish] is the one at the
    moment it gets the read lock, not the one at the moment of the call. *)
Lemma Publish_before_lock_counterexample :
  ¬ (∀ g topic message l p sch,
       reachable p → tasks p !! g = Some (PublishCall topic message) →
       subscribers p !! topic = Some l →
       ∃ new, sent (run step (g :: sch) p) = sent p ++ new ∧
         ∀ c m, (c, m) ∈ sent_by g new → c ∈ l).
Proof.
  intros H.
  destruct (H 7%nat "news"%string "third"%string [0%nat] writer_waiting
              [8; 4; 4; 5; 7; 9; 7; 7; 7]%nat) as (new & Hsent & Hin);
    [exact writer_waiting_reachable|by vm_compute..|].
  assert (sent (run step [7; 8; 4; 4; 5; 7; 9; 7; 7; 7]%nat writer_waiting) =
          sent writer_waiting ++
            [(4%nat, 0%nat, "second"%string); (7%nat, 0%nat, "third"%string);
             (7%nat, 1%nat, "third"%string)]) as Heq by (by vm_compute).
  rewrite Heq in Hsent. apply app_inv_head in Hsent. subst new.
  assert (1%nat ∈ [0%nat]) as Hbad.
  { apply (Hin 1%nat "third"%string).
    assert (sent_by 7 [(4%nat, 0%nat, "second"%string); (7%nat, 0%nat, "third"%string);
                       (7%nat, 1%nat, "third"%string)]
            = [(0%nat, "third"%string); (1%nat, "third"%string)]) as ->
      by (by vm_compute).
    apply elem_of_cons. right. apply elem_of_cons. by left. }
  apply list_elem_of_singleton in Hbad. discriminate.
Qed.

Lemma Publish_spec_witness :
  step 6 writer_waiting = writer_waiting ∧
  let p' := run step (repeat 3%nat 4) two_subscribers in
  tasks p' !! 3%nat = Some (PublishRet None) ∧
  (∀ c, c ∈ [0; 1]%nat → ∃ mb, chans two_subscribers !! c = Some mb ∧
     chans p' !! c = Some {| buf := buf mb ++ ["hi"%string]; cap := cap mb; closed := false |}) ∧
  (∀ c, c ∉ [0; 1]%nat → chans p' !! c = chans two_subscribers !! c).
Proof.
  split.
  { destruct (Publish_spec 6%nat "sport"%string "y"%string writer_waiting [])
      as [Hblocked _]; [exact writer_waiting_reachable|by vm_compute|].
    apply Hblocked. by vm_compute. }
  destruct (Publish_spec 3%nat "news"%string "hi"%string two_subscribers [])
    as [_ Hgranted]; [exact two_subscribers_reachable|by vm_compute|].
  destruct Hgranted as [_ Hsome]; [by vm_compute|].
  destruct (Hsome [0; 1]%nat) as [_ Hroom]; [by vm_compute|].
  apply Hroom. intros c Hc.
  apply elem_of_cons in Hc as [->|Hc]; [|apply list_elem_of_singleton in Hc as ->];
    eexists; (split; [by vm_compute|]); simpl; lia.
Defined.

Lemma news_published_reachable : reachable news_published.
Proof.
  exists news_tasks, [0; 1; 2; 2; 2]%nat. split; [|reflexivity]. by repeat constructor.
Defined.

Lemma CloseTopic_spec_witness :
  tasks (step 3 news_published) !! 3%nat = Some (CloseTopicRet None) ∧
  subscribers (step 3 news_published) !! "news"%string = None ∧
  subscribers (run step [4%nat] (step 3 news_published)) !! "news"%string = None.
Proof.
  destruct (CloseTopic_spec 3%nat "news"%string [0%nat] news_published [4%nat])
    as (H1 & H2 & _ & _ & H3 & _).
  - exact news_published_reachable.
  - by vm_compute.
  - by vm_compute.
  - by vm_compute.
  - intros h ->%list_elem_of_singleton. by vm_compute.
  - done.
Defined.

End PubSubSpec.

(** ** The publisher: what its callers can rely on *)

Module PubSubFacts.
Import PubSub PubSubSpec.

Implicit Types (p q : Publisher) (g h : nat) (sch : list nat) (t : task)
  (topic message : string) (l : list nat) (cs : list mailbox).

Lemma reachable_run sch p : reachable p → reachable (run step sch p).
Proof.
  intros (ts & sch0 & Hts & ->). exists ts, (sch0 ++ sch). split; [done|].
  by rewrite run_app.
Qed.

(** *** No panic *)

Lemma step_tasks_safe g p :
  wf p →
  tasks (step g p) = tasks p ∨
  ∃ t, tasks (step g p) = <[g := t]> (tasks p) ∧ t ≠ Panicked.
Proof.
  intros (Hlo & _ & Hro & _). unfold PubSub.step, exclusive.
  destruct (tasks p !! g) as [t|] eqn:Hg; [|by left].
  destruct t; try (by left).
  - destruct (rlocked p); [|by left]. right. by eexists.
  - destruct (rlocked p); [|by left]. unfold Subscribe.
    destruct (subscribers p !! topic); right; by eexists.
  - unfold shared, Publish. destruct (wwait p); [by left|].
    destruct (subscribers p !! topic); right; by eexists.
  - unfold Publish_range. destruct subscriber as [|c rest]; [right; by eexists|].
    destruct (Hro g _ _ Hg c) as (mb & Hmb & Hcl); [by left|].
    rewrite Hmb, Hcl. case_decide; [|by left]. right. by eexists.
  - destruct (rlocked p); [|by left]. unfold CloseTopic.
    destruct (subscribers p !! topic) as [l|] eqn:Hl; [|right; by eexists].
    destruct (Hlo _ _ Hl) as [Hnd Hop].
    destruct (close_all_open l (chans p) Hnd Hop) as [cs ->]. right. by eexists.
  - destruct (rlocked p); [|by left]. unfold CloseSubscriber.
    destruct (subscribers p !! topic) as [l|] eqn:Hl; [|right; by eexists].
    destruct (list_find _ l) as [[i c0]|] eqn:Hf; [|right; by eexists].
    apply list_find_Some in Hf as (Hi & _ & _).
    destruct (Hlo _ _ Hl) as [_ Hop].
    destruct (Hop c0) as (mb & Hmb & Hcl); [by eapply list_elem_of_lookup_2|].
    rewrite (close_chan_open c0 (chans p) mb Hmb Hcl). right. by eexists.
  - unfold Recv. repeat case_match; (by left) || (right; by eexists).
Qed.

(** X11. No call panics: in every reachable state no goroutine has sent
    on a closed channel or closed a channel twice. *)
Theorem never_panics p g : reachable p → tasks p !! g ≠ Some Panicked.
Proof.
  intros (ts & sch & Hts & ->).
  assert (wf (run step sch (NewPublisher ts)) ∧
          ∀ h, tasks (run step sch (NewPublisher ts)) !! h ≠ Some Panicked)
    as [_ H]; [|done].
  apply (run_invariant step (λ p, wf p ∧ ∀ h, tasks p !! h ≠ Some Panicked)).
  - intros k p [Hwf Hnp]. split; [by apply wf_step|]. intros h.
    destruct (step_tasks_safe k p Hwf) as [->|(t & -> & Ht)]; [done|].
    destruct (decide (k = h)) as [->|Hne].
    + destruct (decide (h < length (tasks p))%nat).
      * rewrite list_lookup_insert_eq by done. congruence.
      * rewrite list_insert_ge by lia. done.
    + by rewrite list_lookup_insert_ne.
  - split; [apply wf_reachable; by exists ts, []|].
    intros h Hh. simpl in Hh. rewrite Forall_lookup in Hts.
    by specialize (Hts h _ Hh).
Qed.

(** X12. The registry is kept in order: in every reachable state a
    subscriber list has no mailbox twice and only open mailboxes, and no
    mailbox is in the lists of two topics. *)
Theorem registry_in_order p :
  reachable p →
  (∀ topic l, subscribers p !! topic = Some l →
     NoDup l ∧ ∀ c, c ∈ l → ∃ mb, chans p !! c = Some mb ∧ closed mb = false) ∧
  (∀ topic1 topic2 l1 l2 c,
     topic1 ≠ topic2 →
     subscribers p !! topic1 = Some l1 → subscribers p !! topic2 = Some l2 →
     c ∈ l1 → c ∉ l2).
Proof. intros (Hlo & Hld & _)%wf_reachable. by split. Qed.

(** *** The mailboxes *)

Lemma bounded_step g p :
  (∀ c mb, chans p !! c = Some mb → bounded mb) →
  ∀ c mb, chans (step g p) !! c = Some mb → bounded mb.
Proof.
  intros Hb. unfold PubSub.step, exclusive.
  destruct (tasks p !! g) as [t|] eqn:Hg; [|done].
  destruct t; try done.
  - by destruct (rlocked p).
  - destruct (rlocked p); [|done]. unfold Subscribe.
    assert (∀ c mb, (chans p ++ [{| buf := []; cap := 1; closed := false |}]) !! c
                    = Some mb → bounded mb) as Hb'.
    { intros c mb [Hc|[_ Hc]]%lookup_app_Some; [by eapply Hb|].
      apply list_lookup_singleton_Some in Hc as [_ <-]. split; simpl; lia. }
    by destruct (subscribers p !! topic).
  - unfold shared, Publish. destruct (wwait p); [done|].
    by destruct (subscribers p !! topic).
  - unfold Publish_range. destruct subscriber as [|ch rest]; [done|].
    destruct (chans p !! ch) as [mb0|] eqn:Hch; [|done].
    destruct (closed mb0); [done|]. case_decide as Hroom; [|done]. simpl.
    intros c mb Hc. destruct (decide (ch = c)) as [->|Hne].
    + rewrite list_lookup_insert_eq in Hc by (by eapply lookup_lt_Some).
      injection Hc as <-. destruct (Hb c mb0 Hch) as [Hcap Hlen].
      split; simpl; [done|]. rewrite length_app. simpl. lia.
    + rewrite list_lookup_insert_ne in Hc by done. by eapply Hb.
  - destruct (rlocked p); [|done]. unfold CloseTopic.
    destruct (subscribers p !! topic) as [l|]; [|done].
    destruct (close_all l (chans p)) as [cs|] eqn:Hca; [|done]. simpl.
    apply close_all_Some in Hca as (_ & Hin & Hout).
    intros c mb Hc. destruct (decide (c ∈ l)) as [Hcl|Hcl].
    + destruct (Hin c Hcl) as (mb0 & Hmb0 & _ & Hcs). rewrite Hcs in Hc.
      injection Hc as <-. by apply (Hb c mb0).
    + rewrite Hout in Hc by done. by eapply Hb.
  - destruct (rlocked p); [|done]. unfold CloseSubscriber.
    destruct (subscribers p !! topic) as [l|]; [|done].
    destruct (list_find _ l) as [[i c0]|]; [|done].
    destruct (close_chan c0 (chans p)) as [cs|] eqn:Hcc; [|done]. simpl.
    apply close_chan_Some in Hcc as (mb0 & Hmb0 & _ & ->).
    intros c mb Hc. destruct (decide (c0 = c)) as [->|Hne].
    + rewrite list_lookup_insert_eq in Hc by (by eapply lookup_lt_Some).
      injection Hc as <-. by apply (Hb c mb0).
    + rewrite list_lookup_insert_ne in Hc by done. by eapply Hb.
  - unfold Recv. destruct (chans p !! ch) as [mb0|] eqn:Hch; [|done].
    destruct (buf mb0) as [|msg rest] eqn:Hbuf; [by destruct (closed mb0)|]. simpl.
    intros c mb Hc. destruct (decide (ch = c)) as [->|Hne].
    + rewrite list_lookup_insert_eq in Hc by (by eapply lookup_lt_Some).
      injection Hc as <-. destruct (Hb c mb0 Hch) as [Hcap Hlen].
      rewrite Hbuf in Hlen. split; simpl in *; [done|lia].
    + rewrite list_lookup_insert_ne in Hc by done. by eapply Hb.
Qed.

(** X13. Every mailbox is a channel of capacity 1 that never holds more
    than one message. *)
Theorem mailbox_holds_one p c mb :
  reachable p → chans p !! c = Some mb →
  cap mb = 1%nat ∧ (length (buf mb) ≤ 1)%nat.
Proof.
  intros (ts & sch & _ & ->). revert c mb.
  apply (run_invariant step (λ p, ∀ c mb, chans p !! c = Some mb → bounded mb)).
  - intros g p. apply bounded_step.
  - intros c mb Hc. by simpl in Hc.
Qed.

(** *** Subscribing and unsubscribing *)

(** X14. [Subscribe] to a name that is not in the registry returns the
    error and no channel and leaves the registry as it is. On a name that
    is there it returns a new channel of capacity 1, empty and open, that
    is in no subscriber list yet, and puts it at the end of the list of its
    topic. *)
Theorem Subscribe_returns_fresh_mailbox g topic p :
  reachable p → rlocked p = 0%nat →
  tasks p !! g = Some (SubscribeCall topic) →
  (subscribers p !! topic = None →
     tasks (step g p) !! g = Some (SubscribeRet None (Some "topic not found"%string)) ∧
     subscribers (step g p) = subscribers p) ∧
  (∀ l, subscribers p !! topic = Some l →
     tasks (step g p) !! g = Some (SubscribeRet (Some (length (chans p))) None) ∧
     subscribers (step g p) = <[topic := l ++ [length (chans p)]]> (subscribers p) ∧
     chans (step g p) = chans p ++ [{| buf := []; cap := 1; closed := false |}] ∧
     (∀ topic' l', subscribers p !! topic' = Some l' → length (chans p) ∉ l')).
Proof.
  intros Hwf%wf_reachable Hz Hg. unfold PubSub.step, exclusive, Subscribe.
  rewrite Hg, Hz. split.
  - intros ->. reduce_fields. split; [|done].
    apply list_lookup_insert_eq. by eapply lookup_lt_Some.
  - intros l ->. reduce_fields. split_and!; [|done|done|].
    + apply list_lookup_insert_eq. by eapply lookup_lt_Some.
    + intros topic' l' Hl' Hin.
      pose proof (listed_in_heap p topic' l' _ Hwf Hl' Hin). lia.
Qed.

Lemma filter_all {A} (P : A → Prop) `{!∀ x, Decision (P x)} (l : list A) :
  Forall P l → filter P l = l.
Proof.
  induction 1 as [|x l Hx _ IH]; [done|]. by rewrite filter_cons_True, IH.
Qed.

Lemma remove_at_filter l i c :
  NoDup l → l !! i = Some c → remove_at i l = filter (λ x, x ≠ c) l.
Proof.
  intros Hnd Hi. destruct (remove_at_NoDup l i c Hi Hnd) as (_ & Hnotin & _).
  unfold remove_at in *. rewrite <- (take_drop_middle l i c Hi) at 3.
  rewrite filter_app, filter_cons_False by (intros Hne; by apply Hne).
  apply not_elem_of_app in Hnotin as [Ht Hd].
  rewrite !filter_all; [done| |]; apply Forall_forall; intros x Hx ->; done.
Qed.

(** X15. [CloseSubscriber] of a name that is not in the registry, or of a
    channel that is not in the list of the topic, returns its error and
    changes nothing. Otherwise it closes that channel, which keeps what it
    holds, and takes it out of the list; the other subscribers stay, in
    their order. *)
Theorem CloseSubscriber_removes_one g topic c p :
  reachable p → rlocked p = 0%nat →
  tasks p !! g = Some (CloseSubscriberCall topic c) →
  (subscribers p !! topic = None →
     tasks (step g p) !! g = Some (CloseSubscriberRet (Some "topic not found"%string)) ∧
     subscribers (step g p) = subscribers p ∧ chans (step g p) = chans p) ∧
  (∀ l, subscribers p !! topic = Some l → c ∉ l →
     tasks (step g p) !! g = Some (CloseSubscriberRet (Some "subscriber not found"%string)) ∧
     subscribers (step g p) = subscribers p ∧ chans (step g p) = chans p) ∧
  (∀ l, subscribers p !! topic = Some l → c ∈ l →
     tasks (step g p) !! g = Some (CloseSubscriberRet None) ∧
     subscribers (step g p) = <[topic := filter (λ x, x ≠ c) l]> (subscribers p) ∧
     ∃ mb, chans p !! c = Some mb ∧ closed mb = false ∧
       chans (step g p) =
         <[c := {| buf := buf mb; cap := cap mb; closed := true |}]> (chans p)).
Proof.
  intros Hwf%wf_reachable Hz Hg. unfold PubSub.step, exclusive, CloseSubscriber.
  rewrite Hg, Hz.
  assert (g < length (tasks p))%nat as Hlt by (by eapply lookup_lt_Some).
  split_and!.
  - intros ->. reduce_fields. split_and!; [|done..]. by apply list_lookup_insert_eq.
  - intros l -> Hc.
    assert (list_find (λ subscriber, subscriber = c) l = None) as ->.
    { apply list_find_None, Forall_forall. intros x Hx ->. done. }
    reduce_fields. split_and!; [|done..]. by apply list_lookup_insert_eq.
  - intros l Hl Hc. rewrite Hl.
    destruct (list_find_elem_of (λ subscriber, subscriber = c) l c Hc eq_refl)
      as [[i c0] Hf].
    rewrite Hf. apply list_find_Some in Hf as (Hi & -> & _).
    destruct Hwf as (Hlo & _). destruct (Hlo topic l Hl) as [Hnd Hop].
    destruct (Hop c Hc) as (mb & Hmb & Hcl).
    rewrite (close_chan_open c (chans p) mb Hmb Hcl). reduce_fields.
    split_and!.
    + by apply list_lookup_insert_eq.
    + by rewrite (remove_at_filter l i c Hnd Hi).
    + by exists mb.
Qed.

(** *** Publish *)

(** X16. A message published to one topic reaches only mailboxes of that
    topic: from the moment the call gets the read lock, which it does when
    no writer waits, under every schedule every send of the call carries
    its message to a channel of the subscriber list of its topic, which is
    in the list of no other topic. *)
Theorem Publish_stays_in_topic g topic message l p sch :
  reachable p → wwait p = false →
  tasks p !! g = Some (PublishCall topic message) →
  subscribers p !! topic = Some l →
  ∃ new, sent (run step (g :: sch) p) = sent p ++ new ∧
    ∀ c m, (c, m) ∈ sent_by g new →
      m = message ∧ c ∈ l ∧
      ∀ topic' l', topic' ≠ topic → subscribers p !! topic' = Some l' → c ∉ l'.
Proof.
  intros Hwf%wf_reachable Hw Hg Hl.
  destruct (Publish_trace g topic message l p Hwf Hw Hg Hl sch)
    as (new & dn & rest & Hsent & Hby & Hsplit & _).
  exists new. split; [done|]. intros c m Hin. rewrite Hby in Hin.
  apply list_elem_of_fmap in Hin as (c0 & [= -> ->] & Hc0).
  assert (c0 ∈ l) as Hc by (rewrite Hsplit; apply elem_of_app; by left).
  split_and!; [done..|]. intros topic' l' Hne Hl'.
  destruct Hwf as (_ & Hld & _). by apply (Hld topic topic' l l').
Qed.

Lemma ranging_pos (ts : list task) g rest message :
  ts !! g = Some (PublishRange rest message) → ranging ts ≠ 0%nat.
Proof. intros Hg Hz. by eapply ranging_zero. Qed.

(** X17. Back-pressure: while no subscriber receives, a [Publish] whose
    next mailbox is full stays where it is under every schedule; it keeps
    the read lock, so that the registry does not change either. *)
Theorem Publish_waits_for_receiver g c rest message mb p sch :
  reachable p →
  (∀ h ch, tasks p !! h ≠ Some (RecvCall ch)) →
  tasks p !! g = Some (PublishRange (c :: rest) message) →
  chans p !! c = Some mb → (cap mb ≤ length (buf mb))%nat →
  tasks (run step sch p) !! g = Some (PublishRange (c :: rest) message) ∧
  chans (run step sch p) !! c = Some mb ∧
  subscribers (run step sch p) = subscribers p.
Proof.
  intros Hwf%wf_reachable Hnr Hg Hc Hfull.
  pose (Inv := λ q,
    wf q ∧ (∀ h ch, tasks q !! h ≠ Some (RecvCall ch)) ∧
    tasks q !! g = Some (PublishRange (c :: rest) message) ∧
    chans q !! c = Some mb ∧ subscribers q = subscribers p).
  assert (Inv (run step sch p)) as (_ & _ & H1 & H2 & H3); [|done].
  apply (run_invariant step Inv); [|done].
  intros k q (Hwfq & Hnrq & Hgq & Hcq & Hsq).
  split; [by apply wf_step|]. split.
  { intros h ch Hh. apply (Hnrq h ch). by eapply step_keeps_call. }
  pose proof Hwfq as (_ & _ & Hro & Hcnt).
  assert (closed mb = false) as Hcl.
  { destruct (Hro g _ _ Hgq c) as (mb' & Hmb' & Hcl'); [by left|]. congruence. }
  assert (rlocked q ≠ 0%nat) as Hrl.
  { rewrite Hcnt. by eapply ranging_pos. }
  unfold PubSub.step, exclusive.
  destruct (tasks q !! k) as [t|] eqn:Hk; [|done].
  destruct t; try done; try (by destruct (rlocked q)).
  - assert (k ≠ g) as Hne by congruence. unfold shared, Publish.
    destruct (wwait q); [done|].
    destruct (subscribers q !! topic); reduce_fields;
      by rewrite list_lookup_insert_ne.
  - unfold Publish_range. destruct (decide (k = g)) as [->|Hne].
    + assert (subscriber = c :: rest) as -> by congruence.
      rewrite Hcq, Hcl. case_decide; [lia|done].
    + destruct subscriber as [|ch rest'];
        [reduce_fields; by rewrite list_lookup_insert_ne|].
      destruct (chans q !! ch) as [mb0|] eqn:Hch; [|done].
      destruct (closed mb0); [reduce_fields; by rewrite list_lookup_insert_ne|].
      case_decide as Hroom; [|done]. simpl.
      assert (ch ≠ c) as Hne'.
      { intros ->. assert (mb0 = mb) as -> by congruence. lia. }
      by rewrite !list_lookup_insert_ne.
  - by destruct (Hnrq k ch).
Qed.

(** *** Closed mailboxes *)

Lemma closed_step g p c : is_closed p c → is_closed (step g p) c.
Proof.
  intros (mb & Hmb & Hcl). unfold is_closed, PubSub.step, exclusive.
  destruct (tasks p !! g) as [t|] eqn:Hg; [|by exists mb].
  destruct t; try (by exists mb).
  - destruct (rlocked p); by exists mb.
  - destruct (rlocked p); [|by exists mb]. unfold Subscribe.
    destruct (subscribers p !! topic); reduce_fields; exists mb;
      (split; [by apply lookup_app_l_Some|done]).
  - unfold shared, Publish. destruct (wwait p); [by exists mb|].
    destruct (subscribers p !! topic); by exists mb.
  - unfold Publish_range. destruct subscriber as [|ch rest]; [by exists mb|].
    destruct (chans p !! ch) as [mb0|] eqn:Hch; [|by exists mb].
    destruct (closed mb0) eqn:Hcl0; [by exists mb|].
    case_decide; [|by exists mb]. simpl. exists mb. split; [|done].
    rewrite list_lookup_insert_ne; [done|]. intros ->. congruence.
  - destruct (rlocked p); [|by exists mb]. unfold CloseTopic.
    destruct (subscribers p !! topic) as [l|]; [|by exists mb].
    destruct (close_all l (chans p)) as [cs|] eqn:Hca; [|by exists mb]. simpl.
    apply close_all_Some in Hca as (_ & Hin & Hout).
    destruct (decide (c ∈ l)) as [Hc|Hc].
    + destruct (Hin c Hc) as (mb0 & _ & _ & Hcs). by eexists.
    + exists mb. by rewrite Hout.
  - destruct (rlocked p); [|by exists mb]. unfold CloseSubscriber.
    destruct (subscribers p !! topic) as [l|]; [|by exists mb].
    destruct (list_find _ l) as [[i c0]|]; [|by exists mb].
    destruct (close_chan c0 (chans p)) as [cs|] eqn:Hcc; [|by exists mb]. simpl.
    apply close_chan_Some in Hcc as (mb0 & Hmb0 & Hcl0 & ->).
    destruct (decide (c0 = c)) as [->|Hne]; [congruence|].
    exists mb. by rewrite list_lookup_insert_ne.
  - unfold Recv. destruct (chans p !! ch) as [mb0|] eqn:Hch; [|by exists mb].
    destruct (buf mb0) as [|msg rest]; [destruct (closed mb0); by exists mb|]. simpl.
    destruct (decide (ch = c)) as [->|Hne].
    + eexists. split; [apply list_lookup_insert_eq; by eapply lookup_lt_Some|].
      simpl. congruence.
    + exists mb. by rewrite list_lookup_insert_ne.
Qed.

Lemma CloseSubscriber_not_listed g topic c q :
  rlocked q = 0%nat → tasks q !! g = Some (CloseSubscriberCall topic c) →
  (∀ topic', ¬ subscribed q topic' c) →
  (tasks (step g q) !! g = Some (CloseSubscriberRet (Some "topic not found"%string)) ∨
   tasks (step g q) !! g = Some (CloseSubscriberRet (Some "subscriber not found"%string))) ∧
  chans (step g q) = chans q.
Proof.
  intros Hz Hg Hout. unfold PubSub.step, exclusive, CloseSubscriber.
  rewrite Hg, Hz.
  assert (g < length (tasks q))%nat as Hlt by (by eapply lookup_lt_Some).
  destruct (subscribers q !! topic) as [l|] eqn:Hl.
  - assert (c ∉ l) as Hc by (intros Hc; apply (Hout topic); by exists l).
    assert (list_find (λ subscriber, subscriber = c) l = None) as ->.
    { apply list_find_None, Forall_forall. intros x Hx ->. done. }
    reduce_fields. split; [right|done]. by apply list_lookup_insert_eq.
  - reduce_fields. split; [left|done]. by apply list_lookup_insert_eq.
Qed.

(** X18. Closing is final: a closed mailbox stays closed and is in no
    subscriber list of any later state, so that a [CloseSubscriber] for it
    returns one of its two errors instead of closing it again. *)
Theorem closed_mailbox_is_gone p c sch g topic :
  reachable p → is_closed p c →
  rlocked (run step sch p) = 0%nat →
  tasks (run step sch p) !! g = Some (CloseSubscriberCall topic c) →
  is_closed (run step sch p) c ∧
  (∀ topic', ¬ subscribed (run step sch p) topic' c) ∧
  (tasks (step g (run step sch p)) !! g =
     Some (CloseSubscriberRet (Some "topic not found"%string)) ∨
   tasks (step g (run step sch p)) !! g =
     Some (CloseSubscriberRet (Some "subscriber not found"%string))) ∧
  chans (step g (run step sch p)) = chans (run step sch p).
Proof.
  intros Hreach Hcl Hz Hg.
  assert (is_closed (run step sch p) c) as Hclq.
  { apply (run_invariant step (λ q, is_closed q c)); [|done].
    intros k q. apply closed_step. }
  pose proof (reachable_run sch p Hreach) as Hq.
  set (q := run step sch p) in *.
  assert (∀ topic', ¬ subscribed q topic' c) as Hout.
  { intros topic' (l & Hl & Hc). apply wf_reachable in Hq as (Hlo & _).
    destruct (Hlo topic' l Hl) as [_ Hop]. destruct (Hop c Hc) as (mb & Hmb & Hopen).
    destruct Hclq as (mb' & Hmb' & Hclosed). congruence. }
  destruct (CloseSubscriber_not_listed g topic c q Hz Hg Hout) as [Hret Hch].
  by split_and!.
Qed.

(** *** The theorems at concrete publishers *)

Lemma two_topics_reachable : reachable two_topics.
Proof.
  eexists _, [0; 1; 2; 3]%nat. split; [|reflexivity]. by repeat constructor.
Defined.

Lemma subscribing_reachable : reachable subscribing.
Proof.
  eexists _, [0]%nat. split; [|reflexivity]. by repeat constructor.
Defined.

Lemma mailbox_full_reachable : reachable mailbox_full.
Proof.
  eexists _, [0; 1; 2; 2; 2; 3]%nat. split; [|reflexivity]. by repeat constructor.
Defined.

Lemma removed_once_reachable : reachable removed_once.
Proof.
  eexists _, [0; 1; 2]%nat. split; [|reflexivity]. by repeat constructor.
Defined.

Lemma unsubscribing_reachable : reachable unsubscribing.
Proof.
  eexists _, [0; 1]%nat. split; [|reflexivity]. by repeat constructor.
Defined.

Lemma never_panics_witness :
  tasks (run step [3; 4; 3; 4]%nat mailbox_full) !! 3%nat ≠ Some Panicked.
Proof.
  apply never_panics, reachable_run, mailbox_full_reachable.
Defined.

Lemma registry_in_order_witness :
  subscribers two_topics !! "news"%string = Some [0%nat] ∧
  subscribers two_topics !! "sport"%string = Some [1%nat] ∧
  (∀ c, c ∈ [0%nat] → c ∉ [1%nat]).
Proof.
  destruct (registry_in_order two_topics two_topics_reachable) as [_ Hd].
  split_and!; [by vm_compute..|]. intros c.
  apply (Hd "news"%string "sport"%string); [done|by vm_compute..].
Defined.

Lemma mailbox_holds_one_witness :
  chans mailbox_full !! 0%nat
    = Some {| buf := ["first"%string]; cap := 1; closed := false |} ∧
  (length ["first"%string] ≤ 1)%nat.
Proof.
  split; [by vm_compute|].
  apply (mailbox_holds_one mailbox_full 0%nat
           {| buf := ["first"%string]; cap := 1; closed := false |});
    [exact mailbox_full_reachable|by vm_compute].
Defined.

Lemma Subscribe_returns_fresh_mailbox_witness :
  tasks (step 1 subscribing) !! 1%nat = Some (SubscribeRet (Some 0%nat) None) ∧
  subscribers (step 1 subscribing)
    = <["news"%string := [] ++ [0%nat]]> (subscribers subscribing) ∧
  tasks (step 2 subscribing) !! 2%nat
    = Some (SubscribeRet None (Some "topic not found"%string)).
Proof.
  destruct (Subscribe_returns_fresh_mailbox 1%nat "news"%string subscribing)
    as [_ Hsome]; [exact subscribing_reachable|by vm_compute..|].
  destruct (Subscribe_returns_fresh_mailbox 2%nat "sport"%string subscribing)
    as [Hnone _]; [exact subscribing_reachable|by vm_compute..|].
  destruct (Hsome []) as (H1 & H2 & _); [by vm_compute|].
  destruct Hnone as [H3 _]; [by vm_compute|].
  by split_and!.
Defined.

Lemma CloseSubscriber_removes_one_witness :
  tasks (step 2 unsubscribing) !! 2%nat = Some (CloseSubscriberRet None) ∧
  subscribers (step 2 unsubscribing)
    = <["news"%string := filter (λ x, x ≠ 0%nat) [0%nat]]> (subscribers unsubscribing).
Proof.
  destruct (CloseSubscriber_removes_one 2%nat "news"%string 0%nat unsubscribing)
    as (_ & _ & Hin); [exact unsubscribing_reachable|by vm_compute..|].
  destruct (Hin [0%nat]) as (H1 & H2 & _);
    [by vm_compute|by apply list_elem_of_singleton|].
  by split.
Defined.

Lemma Publish_stays_in_topic_witness :
  ∃ new, sent (run step [4; 4; 4; 4]%nat two_topics) = sent two_topics ++ new ∧
    ∀ c m, (c, m) ∈ sent_by 4 new →
      m = "hi"%string ∧ c ∈ [0%nat] ∧
      ∀ topic' l', topic' ≠ "news"%string →
        subscribers two_topics !! topic' = Some l' → c ∉ l'.
Proof.
  apply (Publish_stays_in_topic 4%nat "news"%string "hi"%string [0%nat]
           two_topics [4; 4; 4]%nat);
    [exact two_topics_reachable|by vm_compute..].
Defined.

Lemma Publish_waits_for_receiver_witness :
  let p' := run step [3; 4; 3; 4; 3]%nat mailbox_full in
  tasks p' !! 3%nat = Some (PublishRange [0%nat] "second") ∧
  chans p' !! 0%nat = Some {| buf := ["first"%string]; cap := 1; closed := false |} ∧
  subscribers p' = subscribers mailbox_full.
Proof.
  apply (Publish_waits_for_receiver 3%nat 0%nat [] "second"%string
           {| buf := ["first"%string]; cap := 1; closed := false |} mailbox_full).
  - exact mailbox_full_reachable.
  - intros h ch. do 5 (destruct h as [|h]; [by vm_compute|]). by vm_compute.
  - by vm_compute.
  - by vm_compute.
  - simpl. lia.
Defined.

Lemma closed_mailbox_is_gone_witness :
  is_closed (run step [] removed_once) 0%nat ∧
  (∀ topic', ¬ subscribed (run step [] removed_once) topic' 0%nat) ∧
  (tasks (step 3 (run step [] removed_once)) !! 3%nat =
     Some (CloseSubscriberRet (Some "topic not found"%string)) ∨
   tasks (step 3 (run step [] removed_once)) !! 3%nat =
     Some (CloseSubscriberRet (Some "subscriber not found"%string))) ∧
  chans (step 3 (run step [] removed_once)) = chans (run step [] removed_once).
Proof.
  apply (closed_mailbox_is_gone removed_once 0%nat [] 3%nat "news"%string).
  - exact removed_once_reachable.
  - eexists. split; by vm_compute.
  - by vm_compute.
  - by vm_compute.
Defined.

End PubSubFacts.
